(** * lobsim: a shallow embedding of the limit-order-book matching engine

    Sources embedded here: [lobsim/orders.py] (Side, Fill, Order),
    [lobsim/queue.py] (Queue), [lobsim/instruments.py] (Instrument),
    [lobsim/utils.py] (now, exist_any, is_divisible) and
    [lobsim/orderbook.py] (Orderbook).

    Conventions of the embedding.
    - Python floats that carry prices and quantities are fixed-point
      integers: the float [x] is the integer [x * 10^SCALE].  [round(x, p)]
      rounds half-to-even to a multiple of [10^(SCALE - p)].
    - Python objects live in two heaps ([qheap] for Queue objects, [oheap]
      for Order objects); fields that hold an object hold a reference, so
      aliasing and in-place mutation are kept.  An Order object is addressed
      by the counter that also yields its uuid.
    - Methods are computations in a state-and-exception monad over [World];
      [while] loops take fuel.
    - The [send_private] / [notify] callback is modelled by its effect: it
      appends [(recipient, message)] to the log [sent].

    Scope of the numbers.  The decimal model is exact, binary floats are
    not: the two agree on sums and differences of decimals of at most six
    digits that are re-rounded, as long as the values stay within
    [float_safe], no rounding falls on a decimal tie and [0.5 * x] is taken
    of an even number of millionths.  Theorems whose statement depends on a
    computed number say so in their hypotheses. *)

From Stdlib Require Import ZArith Lia.
From stdpp Require Import base gmap strings list.

Local Open Scope Z_scope.

(** ** Numbers *)

Definition SCALE : nat := 6.

(** The integer that stands for [10^-p]. *)
Definition unit_of (p : nat) : Z := 10 ^ Z.of_nat (SCALE - p).

(** Round [x] to a multiple of [g], ties to the even multiple. *)
Definition round_half_even (g x : Z) : Z :=
  let q := x / g in
  let r := x mod g in
  if 2 * r <? g then q * g
  else if g <? 2 * r then (q + 1) * g
  else if Z.even q then q * g else (q + 1) * g.

(** [round(x, p)] *)
Definition py_round (x : Z) (p : nat) : Z := round_half_even (unit_of p) x.

(** [0.5 * x] *)
Definition half (x : Z) : Z := x / 2.

(** utils.py: [is_divisible(x, y)] *)
Definition is_divisible (x y : Z) : bool :=
  negb (y =? 0) && (x mod y =? 0).

(** A float that may be [float("inf")]. *)
Inductive xfloat := Fin (z : Z) | Inf.

#[global] Instance xfloat_eq_dec : EqDecision xfloat.
Proof. solve_decision. Defined.

(** [min(price, m)] *)
Definition xmin (price : Z) (m : xfloat) : Z :=
  match m with
  | Fin z => if z <? price then z else price
  | Inf => price
  end.

(** ** orders.py: Side *)

Inductive Side := BID | ASK.

#[global] Instance Side_eq_dec : EqDecision Side.
Proof. solve_decision. Defined.

Definition value (s : Side) : Z := match s with BID => 1 | ASK => -1 end.
Definition is_bid (s : Side) : bool := match s with BID => true | ASK => false end.
(** [Side.__neg__] *)
Definition neg (s : Side) : Side := match s with BID => ASK | ASK => BID end.
(** [Side.__mul__] *)
Definition smul (s : Side) (x : Z) : Z := value s * x.
(** [Side.__str__] *)
Definition Side_str (s : Side) : string :=
  match s with BID => "BID" | ASK => "ASK" end.

(** A dict keyed by the two sides. *)
Record per_side (A : Type) := PerSide { at_bid : A; at_ask : A }.
Arguments PerSide {A} _ _.
Arguments at_bid {A} _.
Arguments at_ask {A} _.

Definition side_get {A} (d : per_side A) (s : Side) : A :=
  match s with BID => at_bid d | ASK => at_ask d end.
Definition side_set {A} (d : per_side A) (s : Side) (v : A) : per_side A :=
  match s with
  | BID => PerSide v (at_ask d)
  | ASK => PerSide (at_bid d) v
  end.

(** ** instruments.py *)

Record LotSize := { max_qty : Z; min_qty : Z; step_size : Z }.
Record PriceDetails := { tick_size : Z; min_price : Z; max_price : Z }.
Record Precision := {
  price_precision : nat;
  quote_precision : nat;
  quantity_precision : nat
}.
Record Instrument := {
  lot_size : LotSize;
  precision : Precision;
  price_details : PriceDetails
}.

Definition is_valid_quantity (i : Instrument) (quantity : Z) : bool :=
  if max_qty (lot_size i) <? quantity then false
  else if quantity <? min_qty (lot_size i) then false
  else if negb (is_divisible quantity (step_size (lot_size i))) then false
  else true.

Definition is_valid_price (i : Instrument) (price : Z) : bool :=
  if price <? min_price (price_details i) then false
  else if max_price (price_details i) <? price then false
  else if negb (is_divisible price (tick_size (price_details i))) then false
  else true.

Definition adjust_price (i : Instrument) (price : Z) : Z :=
  py_round price (price_precision (precision i)).
Definition adjust_quantity (i : Instrument) (quantity : Z) : Z :=
  py_round quantity (quantity_precision (precision i)).

(** ** Objects and references *)

Definition oref := nat.
Definition qref := nat.

Module Order.
Record t := mk {
owner : string;
instrument : Instrument;
side : Side;
quantity : Z;
price : Z;
oprev : option oref;
onext : option oref;
queue : option qref;
updated : nat;
created : nat;
order_id : nat;
remaining : Z;
last_filled_quantity : Z
}.

Definition set_oprev (v : option oref) (o : t) : t :=
mk (owner o) (instrument o) (side o) (quantity o) (price o) v (onext o)
 (queue o) (updated o) (created o) (order_id o) (remaining o)
 (last_filled_quantity o).
Definition set_onext (v : option oref) (o : t) : t :=
mk (owner o) (instrument o) (side o) (quantity o) (price o) (oprev o) v
 (queue o) (updated o) (created o) (order_id o) (remaining o)
 (last_filled_quantity o).
Definition set_queue (v : option qref) (o : t) : t :=
mk (owner o) (instrument o) (side o) (quantity o) (price o) (oprev o)
 (onext o) v (updated o) (created o) (order_id o) (remaining o)
 (last_filled_quantity o).
Definition set_updated (v : nat) (o : t) : t :=
mk (owner o) (instrument o) (side o) (quantity o) (price o) (oprev o)
 (onext o) (queue o) v (created o) (order_id o) (remaining o)
 (last_filled_quantity o).
Definition set_price (v : Z) (o : t) : t :=
mk (owner o) (instrument o) (side o) (quantity o) v (oprev o)
 (onext o) (queue o) (updated o) (created o) (order_id o) (remaining o)
 (last_filled_quantity o).
Definition set_quantity (v : Z) (o : t) : t :=
mk (owner o) (instrument o) (side o) v (price o) (oprev o)
 (onext o) (queue o) (updated o) (created o) (order_id o) (remaining o)
 (last_filled_quantity o).
Definition set_remaining (v : Z) (o : t) : t :=
mk (owner o) (instrument o) (side o) (quantity o) (price o) (oprev o)
 (onext o) (queue o) (updated o) (created o) (order_id o) v
 (last_filled_quantity o).
Definition set_last_filled_quantity (v : Z) (o : t) : t :=
mk (owner o) (instrument o) (side o) (quantity o) (price o) (oprev o)
 (onext o) (queue o) (updated o) (created o) (order_id o) (remaining o)
 v.

(** [Order.filled] *)
Definition filled (o : t) : bool := remaining o =? 0.
End Order.

Module Queue.
Record t := mk {
limit : Z;
side : Side;
notify : bool;          (* is a callback installed (not None) *)
volume_precision : nat;
qprev : option qref;
qnext : option qref;
ohead : option oref;
otail : option oref;
volume : Z;
nb_orders : Z
}.

Definition set_qprev (v : option qref) (q : t) : t :=
mk (limit q) (side q) (notify q) (volume_precision q) v (qnext q)
 (ohead q) (otail q) (volume q) (nb_orders q).
Definition set_qnext (v : option qref) (q : t) : t :=
mk (limit q) (side q) (notify q) (volume_precision q) (qprev q) v
 (ohead q) (otail q) (volume q) (nb_orders q).
Definition set_ohead (v : option oref) (q : t) : t :=
mk (limit q) (side q) (notify q) (volume_precision q) (qprev q) (qnext q)
 v (otail q) (volume q) (nb_orders q).
Definition set_otail (v : option oref) (q : t) : t :=
mk (limit q) (side q) (notify q) (volume_precision q) (qprev q) (qnext q)
 (ohead q) v (volume q) (nb_orders q).
Definition set_volume (v : Z) (q : t) : t :=
mk (limit q) (side q) (notify q) (volume_precision q) (qprev q) (qnext q)
 (ohead q) (otail q) v (nb_orders q).
Definition set_nb_orders (v : Z) (q : t) : t :=
mk (limit q) (side q) (notify q) (volume_precision q) (qprev q) (qnext q)
 (ohead q) (otail q) (volume q) v.

(** [Queue.empty] *)
Definition empty (q : t) : bool := volume q =? 0.
(** [Queue._rv] *)
Definition _rv (q : t) (quantity : Z) : Z :=
py_round quantity (volume_precision q).
End Queue.

(** ** Messages handed to the callback *)

(** orders.py: Fill *)
Record Fill := {
  fill_order_id : nat;
  fill_price : Z;
  fill_quantity : Z;
  fill_created : nat
}.

(** The two reason texts of [Orderbook._reject_market]. *)
Inductive reason :=
  | GreaterThanAvailable (quantity available : Z)
      (* f"{quantity=} is greater than available liquidity {available}" *)
  | NoAvailableLiquidity.
      (* "No available liquidity in maket." *)

Inductive pyval :=
  | VStr (s : string)
  | VNum (z : Z)
  | VTime (ts : nat)
  | VUuid (n : nat)
  | VFillStr (price : Z)       (* Fill.__str__: "Fill(price=<price>, " *)
  | VReason (r : reason).

(** A message is a dict from field names to values. *)
Abbreviation message := (gmap string pyval).

(** The strings given as first argument of the callback: a client id
    supplied by a caller, or the uuid string of an order. *)
Inductive ident := Client (name : string) | OrderUuid (n : nat).

#[global] Instance ident_eq_dec : EqDecision ident.
Proof. solve_decision. Defined.

(** ** The book and the world *)

Record Orderbook := mkBook {
  max_ask : Z;
  min_bid : xfloat;
  best_queue : per_side (option qref);
  best_volumes : per_side Z;
  queues : gmap Z qref;
  order_map : gmap nat oref;
  _prev_mid : option Z;
  _curr_mid : option Z;
  _instrument : Instrument;
  send_private : bool       (* is a callback installed (not None) *)
}.

Record World := mkWorld {
  book : Orderbook;
  qheap : gmap qref Queue.t;
  oheap : gmap oref Order.t;
  sent : list (ident * message);
  clock : nat;              (* what [now()] returns next *)
  next_uuid : nat;          (* what [uuid.uuid4()] returns next *)
  next_qref : nat           (* where the next Queue object is allocated *)
}.

(** [Orderbook.__init__] *)
Definition Orderbook_init (instrument : Instrument) (send_private : bool)
  : Orderbook :=
  mkBook 0 Inf (PerSide None None) (PerSide 0 0) ∅ ∅ None None
         instrument send_private.

Definition World_init (instrument : Instrument) (send_private : bool) : World :=
  mkWorld (Orderbook_init instrument send_private) ∅ ∅ [] 0 0 0.

Definition set_max_ask (v : Z) (b : Orderbook) : Orderbook :=
  mkBook v (min_bid b) (best_queue b) (best_volumes b) (queues b)
         (order_map b) (_prev_mid b) (_curr_mid b) (_instrument b)
         (send_private b).
Definition set_min_bid (v : xfloat) (b : Orderbook) : Orderbook :=
  mkBook (max_ask b) v (best_queue b) (best_volumes b) (queues b)
         (order_map b) (_prev_mid b) (_curr_mid b) (_instrument b)
         (send_private b).
Definition set_best_queue (v : per_side (option qref)) (b : Orderbook)
  : Orderbook :=
  mkBook (max_ask b) (min_bid b) v (best_volumes b) (queues b)
         (order_map b) (_prev_mid b) (_curr_mid b) (_instrument b)
         (send_private b).
Definition set_best_volumes (v : per_side Z) (b : Orderbook) : Orderbook :=
  mkBook (max_ask b) (min_bid b) (best_queue b) v (queues b)
         (order_map b) (_prev_mid b) (_curr_mid b) (_instrument b)
         (send_private b).
Definition set_queues (v : gmap Z qref) (b : Orderbook) : Orderbook :=
  mkBook (max_ask b) (min_bid b) (best_queue b) (best_volumes b) v
         (order_map b) (_prev_mid b) (_curr_mid b) (_instrument b)
         (send_private b).
Definition set_order_map (v : gmap nat oref) (b : Orderbook) : Orderbook :=
  mkBook (max_ask b) (min_bid b) (best_queue b) (best_volumes b) (queues b)
         v (_prev_mid b) (_curr_mid b) (_instrument b) (send_private b).
Definition set_prev_mid (v : option Z) (b : Orderbook) : Orderbook :=
  mkBook (max_ask b) (min_bid b) (best_queue b) (best_volumes b) (queues b)
         (order_map b) v (_curr_mid b) (_instrument b) (send_private b).
Definition set_curr_mid (v : option Z) (b : Orderbook) : Orderbook :=
  mkBook (max_ask b) (min_bid b) (best_queue b) (best_volumes b) (queues b)
         (order_map b) (_prev_mid b) v (_instrument b) (send_private b).

Definition set_book (v : Orderbook) (w : World) : World :=
  mkWorld v (qheap w) (oheap w) (sent w) (clock w) (next_uuid w) (next_qref w).
Definition set_qheap (v : gmap qref Queue.t) (w : World) : World :=
  mkWorld (book w) v (oheap w) (sent w) (clock w) (next_uuid w) (next_qref w).
Definition set_oheap (v : gmap oref Order.t) (w : World) : World :=
  mkWorld (book w) (qheap w) v (sent w) (clock w) (next_uuid w) (next_qref w).
Definition set_sent (v : list (ident * message)) (w : World) : World :=
  mkWorld (book w) (qheap w) (oheap w) v (clock w) (next_uuid w) (next_qref w).
Definition set_clock (v : nat) (w : World) : World :=
  mkWorld (book w) (qheap w) (oheap w) (sent w) v (next_uuid w) (next_qref w).
Definition set_next_uuid (v : nat) (w : World) : World :=
  mkWorld (book w) (qheap w) (oheap w) (sent w) (clock w) v (next_qref w).
Definition set_next_qref (v : nat) (w : World) : World :=
  mkWorld (book w) (qheap w) (oheap w) (sent w) (clock w) (next_uuid w) v.

(** ** The monad: state, Python exceptions, fuel *)

Inductive exn := OrderbookException | AttributeError | TypeError | KeyError.

Inductive outcome (A : Type) :=
  | Return (a : A)
  | Raise (e : exn)
  | OutOfFuel          (* a loop used up its fuel *)
  | Dangling.          (* a reference outside the heap: no Python run *)
Arguments Return {A} _.
Arguments Raise {A} _.
Arguments OutOfFuel {A}.
Arguments Dangling {A}.

Definition M (A : Type) : Type := World -> outcome A * World.

#[global] Instance M_ret : MRet M := fun A a w => (Return a, w).
#[global] Instance M_bind : MBind M := fun A B f m w =>
  match m w with
  | (Return a, w') => f a w'
  | (Raise e, w') => (Raise e, w')
  | (OutOfFuel, w') => (OutOfFuel, w')
  | (Dangling, w') => (Dangling, w')
  end.

Definition raise {A} (e : exn) : M A := fun w => (Raise e, w).
Definition out_of_fuel {A} : M A := fun w => (OutOfFuel, w).
Definition getW : M World := fun w => (Return w, w).
Definition modW (f : World -> World) : M unit := fun w => (Return tt, f w).

(** Attribute access through a value that may be [None]. *)
Definition the {A} (e : exn) (o : option A) : M A :=
  match o with Some a => mret a | None => raise e end.

Definition getB : M Orderbook := fun w => (Return (book w), w).
Definition modB (f : Orderbook -> Orderbook) : M unit :=
  modW (fun w => set_book (f (book w)) w).

Definition getQ (r : qref) : M Queue.t := fun w =>
  match qheap w !! r with
  | Some q => (Return q, w)
  | None => (Dangling, w)
  end.
Definition modQ (r : qref) (f : Queue.t -> Queue.t) : M unit :=
  q ← getQ r; modW (fun w => set_qheap (<[r := f q]> (qheap w)) w).

Definition getO (r : oref) : M Order.t := fun w =>
  match oheap w !! r with
  | Some o => (Return o, w)
  | None => (Dangling, w)
  end.
Definition modO (r : oref) (f : Order.t -> Order.t) : M unit :=
  o ← getO r; modW (fun w => set_oheap (<[r := f o]> (oheap w)) w).

(** utils.py: [now()] *)
Definition now : M nat := fun w =>
  (Return (clock w), set_clock (S (clock w)) w).

(** [uuid.uuid4()] *)
Definition uuid4 : M nat := fun w =>
  (Return (next_uuid w), set_next_uuid (S (next_uuid w)) w).

(** The effect of calling the installed callback. *)
Definition deliver (client_id : ident) (msg : message) : M unit :=
  modW (fun w => set_sent (sent w ++ [(client_id, msg)]) w).

(** ** orders.py: Order *)

(** [Order(...)] with [__post_init__] *)
Definition Order_new (instrument : Instrument) (owner : string) (side : Side)
    (quantity price : Z) : M oref :=
  engine_ts ← now;
  id ← uuid4;
  modW (fun w => set_oheap
    (<[id := Order.mk owner instrument side quantity price None None None
                      engine_ts engine_ts id quantity 0]> (oheap w)) w);;
  mret id.

Definition Order_infos (o : Order.t) : message :=
  <["order_id" := VUuid (Order.order_id o)]>
  (<["side" := VStr (Side_str (Order.side o))]>
  (<["quantity" := VNum (Order.quantity o)]>
  (<["remaining" := VNum (Order.remaining o)]>
  (<["price" := VNum (Order.price o)]>
  (<["created" := VTime (Order.created o)]>
  (<["updated" := VTime (Order.updated o)]> ∅)))))).

(** [dict.update]: the entries of [kwargs] win. *)
Definition dict_update (msg kwargs : message) : message := kwargs ∪ msg.

Definition Order_update (self : oref) (price quantity : option Z)
    (queue : option qref) : M unit :=
  match price with
  | Some p => modO self (Order.set_price p)
  | None => mret tt
  end;;
  match quantity with
  | Some q =>
      modO self (Order.set_quantity q);;
      modO self (Order.set_remaining q)
  | None => mret tt
  end;;
  match queue with
  | Some r => modO self (Order.set_queue (Some r))
  | None => mret tt
  end;;
  if bool_decide (is_Some price) || bool_decide (is_Some quantity)
     || bool_decide (is_Some queue)
  then t ← now; modO self (Order.set_updated t)
  else mret tt.

Definition Order_add_fill (self : oref) (quantity : Z) : M Fill :=
  update_ts ← now;
  o ← getO self;
  let fill := Build_Fill (Order.order_id o) (Order.price o) quantity
                         update_ts in
  modO self (Order.set_last_filled_quantity quantity);;
  o ← getO self;
  let v_precision := quote_precision (precision (Order.instrument o)) in
  modO self (Order.set_remaining
               (py_round (Order.remaining o - quantity) v_precision));;
  modO self (Order.set_updated update_ts);;
  mret fill.

(** [Order.__eq__(self, other)] *)
Definition Order_eq (self : oref) (other : option oref) : M bool :=
  a ← getO self;
  r ← the AttributeError other;
  b ← getO r;
  mret (bool_decide (Order.order_id a = Order.order_id b)).

(** ** queue.py: Queue *)

(** [Queue(limit=..., side=..., notify=...)] with [__post_init__] *)
Definition Queue_new (limit : Z) (side : Side) (notify : bool) : M qref :=
  w ← getW;
  let r := next_qref w in
  modW (fun w => set_next_qref (S r)
    (set_qheap (<[r := Queue.mk limit side notify 2 None None None None 0 0]>
                  (qheap w)) w));;
  mret r.

(** [Queue.__eq__(self, other)] *)
Definition Queue_eq (self : qref) (other : option qref) : M bool :=
  a ← getQ self;
  r ← the AttributeError other;
  b ← getQ r;
  mret (Queue.limit a =? Queue.limit b).

Definition Queue_notify (self : qref) (status : string) (order : oref)
  : M unit :=
  q ← getQ self;
  if Queue.notify q then
    o ← getO order;
    let msg := dict_update {["status" := VStr status]} (Order_infos o) in
    deliver (Client (Order.owner o)) msg
  else mret tt.

Definition Queue_add (self : qref) (order : oref) : M unit :=
  q ← getQ self;
  match Queue.ohead q with
  | None =>
      modQ self (Queue.set_ohead (Some order));;
      modQ self (Queue.set_otail (Some order))
  | Some _ =>
      modO order (Order.set_oprev (Queue.otail q));;
      modO order (Order.set_onext None);;
      tail ← the AttributeError (Queue.otail q);
      modO tail (Order.set_onext (Some order));;
      modQ self (Queue.set_otail (Some order))
  end;;
  q ← getQ self;
  o ← getO order;
  modQ self (Queue.set_volume
               (Queue._rv q (Queue.volume q + Order.quantity o)));;
  q ← getQ self;
  modQ self (Queue.set_nb_orders (Queue.nb_orders q + 1));;
  Order_update order None None (Some self);;
  Queue_notify self "New order" order.

Definition Queue_remove (self : qref) (order : oref) : M unit :=
  q ← getQ self;
  modQ self (Queue.set_nb_orders (Queue.nb_orders q - 1));;
  o ← getO order;
  q ← getQ self;
  (if Order.filled o then
     modQ self (Queue.set_volume
                  (Queue._rv q (Queue.volume q - Order.last_filled_quantity o)))
   else
     modQ self (Queue.set_volume
                  (Queue._rv q (Queue.volume q - Order.remaining o))));;
  q ← getQ self;
  is_head ← Order_eq order (Queue.ohead q);
  sole ← (if is_head : bool then Order_eq order (Queue.otail q)
          else mret false);
  if sole : bool then
    modQ self (Queue.set_ohead None);;
    modQ self (Queue.set_otail None)
  else
    is_tail ← Order_eq order (Queue.otail q);
    if is_tail : bool then
      o ← getO order;
      modQ self (Queue.set_otail (Order.oprev o));;
      p ← the AttributeError (Order.oprev o);
      modO p (Order.set_onext None)
    else
      is_head ← Order_eq order (Queue.ohead q);
      if is_head : bool then
        o ← getO order;
        modQ self (Queue.set_ohead (Order.onext o));;
        n ← the AttributeError (Order.onext o);
        modO n (Order.set_oprev None)
      else
        o ← getO order;
        n ← the AttributeError (Order.onext o);
        modO n (Order.set_oprev (Order.oprev o));;
        o ← getO order;
        p ← the AttributeError (Order.oprev o);
        modO p (Order.set_onext (Order.onext o)).

Definition Queue_fill (self : qref) (order : oref) (quantity : Z) : M unit :=
  fill ← Order_add_fill order quantity;
  let msg : message :=
    <["status" := VStr "New Fill"]>
      {["fill" := VFillStr (fill_price fill)]} in
  q ← getQ self;
  (if Queue.notify q then deliver (OrderUuid (fill_order_id fill)) msg
   else mret tt);;
  o ← getO order;
  if Order.filled o then Queue_notify self "Filled" order
  else
    Queue_notify self "Partial fill" order;;
    q ← getQ self;
    modQ self (Queue.set_volume (Queue._rv q (Queue.volume q - quantity))).

(** ** orderbook.py: Orderbook *)

(** Calling [self.send_private(client_id, message)]; calling [None] is a
    [TypeError]. *)
Definition call_send_private (client_id : ident) (msg : message) : M unit :=
  b ← getB;
  if send_private b then deliver client_id msg else raise TypeError.

Definition get_tick_size : M Z :=
  b ← getB; mret (tick_size (price_details (_instrument b))).

Definition set_best (s : Side) (v : option qref) : M unit :=
  modB (fun b => set_best_queue (side_set (best_queue b) s v) b).

Definition get_best (s : Side) : M (option qref) :=
  b ← getB; mret (side_get (best_queue b) s).

Definition _update_mid : M unit :=
  best_ask_q ← get_best ASK;
  best_bid_q ← get_best BID;
  match best_ask_q, best_bid_q with
  | None, None =>
      modB (set_prev_mid None);;
      modB (set_curr_mid None)
  | None, Some bid_q =>
      qb ← getQ bid_q;
      tick ← get_tick_size;
      b ← getB;
      modB (set_curr_mid
              (Some (adjust_price (_instrument b)
                       (Queue.limit qb + half tick))))
  | Some ask_q, None =>
      qa ← getQ ask_q;
      tick ← get_tick_size;
      b ← getB;
      modB (set_curr_mid
              (Some (adjust_price (_instrument b)
                       (Queue.limit qa - half tick))))
  | Some ask_q, Some bid_q =>
      b ← getB;
      modB (set_prev_mid (_curr_mid b));;
      qa ← getQ ask_q;
      let best_ask := Queue.limit qa in
      qb ← getQ bid_q;
      let best_bid := Queue.limit qb in
      let mid := adjust_price (_instrument b) (half (best_ask + best_bid)) in
      modB (set_curr_mid (Some mid));;
      tick ← get_tick_size;
      let half_tick := half tick in
      (if is_divisible mid tick then
         b ← getB;
         prev ← the TypeError (_prev_mid b);
         if mid <? prev then modB (set_curr_mid (Some (mid + half_tick)))
         else modB (set_curr_mid (Some (mid - half_tick)))
       else mret tt);;
      b ← getB;
      curr ← the TypeError (_curr_mid b);
      modB (set_curr_mid (Some (adjust_price (_instrument b) curr)))
  end.

Fixpoint _find_prev_queue_loop (fuel : nat) (current_limit : Z) (side : Side)
  : M qref :=
  match fuel with
  | O => out_of_fuel
  | S fuel' =>
      b ← getB;
      tick ← get_tick_size;
      let current_limit :=
        adjust_price (_instrument b) (current_limit + smul side tick) in
      match queues b !! current_limit with
      | Some current_queue => mret current_queue
      | None => _find_prev_queue_loop fuel' current_limit side
      end
  end.

Definition _find_prev_queue (fuel : nat) (limit : Z) (side : Side) : M qref :=
  _find_prev_queue_loop fuel limit side.

Definition _create_queue (fuel : nat) (side : Side) (price : Z) : M qref :=
  (if is_bid side then
     modB (fun b => set_min_bid (Fin (xmin price (min_bid b))) b)
   else
     modB (fun b => set_max_ask (Z.max price (max_ask b)) b));;
  b ← getB;
  new_queue ← Queue_new price side (send_private b);
  best ← get_best side;
  match best with
  | None =>
      set_best side (Some new_queue);;
      _update_mid
  | Some best_q =>
      bq ← getQ best_q;
      if smul side (Queue.limit bq) <? smul side price then
        modQ new_queue (Queue.set_qprev None);;
        modQ new_queue (Queue.set_qnext (Some best_q));;
        modQ best_q (Queue.set_qprev (Some new_queue));;
        set_best side (Some new_queue);;
        _update_mid
      else
        prev_queue ← _find_prev_queue fuel price side;
        modQ new_queue (Queue.set_qprev (Some prev_queue));;
        pq ← getQ prev_queue;
        modQ new_queue (Queue.set_qnext (Queue.qnext pq));;
        pq ← getQ prev_queue;
        match Queue.qnext pq with
        | Some nxt => modQ nxt (Queue.set_qprev (Some new_queue))
        | None => mret tt
        end;;
        modQ prev_queue (Queue.set_qnext (Some new_queue))
  end;;
  modB (fun b => set_queues (<[price := new_queue]> (queues b)) b);;
  mret new_queue.

Definition _get_order (order_id : nat) : M oref :=
  b ← getB;
  match order_map b !! order_id with
  | None => raise OrderbookException
  | Some order => mret order
  end.

Definition add_best_volume (s : Side) (delta : Z) : M unit :=
  b ← getB;
  modB (set_best_volumes
          (side_set (best_volumes b) s
             (adjust_quantity (_instrument b)
                (side_get (best_volumes b) s + delta)))).

Definition _insert_order (fuel : nat) (order : oref) : M unit :=
  o ← getO order;
  modB (fun b => set_order_map (<[Order.order_id o := order]> (order_map b)) b);;
  b ← getB;
  o ← getO order;
  queue ← match queues b !! Order.price o with
          | Some queue => mret queue
          | None => _create_queue fuel (Order.side o) (Order.price o)
          end;
  Queue_add queue order;;
  o ← getO order;
  add_best_volume (Order.side o) (Order.quantity o).

(** [del self.queues[key]] *)
Definition del_queues (key : Z) : M unit :=
  b ← getB;
  match queues b !! key with
  | None => raise KeyError
  | Some _ => modB (set_queues (delete key (queues b)))
  end.

(** [del self.order_map[key]] *)
Definition del_order_map (key : nat) : M unit :=
  b ← getB;
  match order_map b !! key with
  | None => raise KeyError
  | Some _ => modB (set_order_map (delete key (order_map b)))
  end.

Definition _delete_queue (side : Side) (queue : qref) : M unit :=
  best ← get_best side;
  is_best ← Queue_eq queue best;
  (if is_best : bool then
     q ← getQ queue;
     set_best side (Queue.qnext q);;
     match Queue.qnext q with
     | Some nxt => modQ nxt (Queue.set_qprev None)
     | None => mret tt
     end;;
     _update_mid
   else
     q ← getQ queue;
     p ← the AttributeError (Queue.qprev q);
     modQ p (Queue.set_qnext (Queue.qnext q));;
     q ← getQ queue;
     match Queue.qnext q with
     | Some nxt => modQ nxt (Queue.set_qprev (Queue.qprev q))
     | None => mret tt
     end);;
  q ← getQ queue;
  b ← getB;
  (if is_bid side && bool_decide (Fin (Queue.limit q) = min_bid b) then
     match Queue.qprev q with
     | None => modB (set_min_bid Inf)
     | Some p => pq ← getQ p; modB (set_min_bid (Fin (Queue.limit pq)))
     end
   else mret tt);;
  q ← getQ queue;
  b ← getB;
  (if negb (is_bid side) && (Queue.limit q =? max_ask b) then
     match Queue.qprev q with
     | None => modB (set_max_ask 0)
     | Some p => pq ← getQ p; modB (set_max_ask (Queue.limit pq))
     end
   else mret tt);;
  q ← getQ queue;
  del_queues (Queue.limit q).

Definition _reject_market (client_id : string) (reason : option reason)
    (kwargs : message) : M unit :=
  let reason := default NoAvailableLiquidity reason in
  ts ← now;
  let msg : message :=
    <["status" := VStr "rejected"]>
    (<["reason" := VReason reason]>
    {["engine_ts" := VTime ts]}) in
  call_send_private (Client client_id) (dict_update msg kwargs).

(** The body shared by the two walks: fill the head order of [q] with
    [qty] and book the volume (orderbook.py lines 245-250 and 313-318). *)
Definition fill_head (q : qref) (quantity : Z) : M (oref * Z) :=
  qo ← getQ q;
  order ← the AttributeError (Queue.ohead qo);
  o ← getO order;
  let qty := Z.min quantity (Order.remaining o) in
  Queue_fill q order qty;;
  o ← getO order;
  add_best_volume (Order.side o) (- qty);;
  mret (order, qty).

(** The [while] loop of [on_marketable]; returns the quantity left. *)
Fixpoint on_marketable_loop (fuel : nat) (side : Side) (quantity price : Z)
    (q : qref) : M Z :=
  qo ← getQ q;
  if negb (quantity =? 0)
     && (smul side (Queue.limit qo) <=? smul side price) then
    match fuel with
    | O => out_of_fuel
    | S fuel' =>
        '(order, qty) ← fill_head q quantity;
        o ← getO order;
        (if Order.filled o then
           Queue_remove q order;;
           b ← getB;
           o ← getO order;
           (* [self.order_map[order.order_id]]: a lookup, nothing deleted *)
           _ ← the KeyError (order_map b !! Order.order_id o);
           mret tt
         else mret tt);;
        b ← getB;
        let quantity := adjust_quantity (_instrument b) (quantity - qty) in
        qo ← getQ q;
        (if Queue.empty qo then _delete_queue (neg side) q else mret tt);;
        best ← get_best (neg side);
        match best with
        | None => mret quantity
        | Some q' => on_marketable_loop fuel' side quantity price q'
        end
    end
  else mret quantity.

Definition on_marketable (fuel : nat) (side : Side) (quantity price : Z)
    (client_id : string) : M unit :=
  best ← get_best (neg side);
  match best with
  | None =>
      _reject_market client_id None
        (<["side" := VStr (Side_str side)]>
         (<["quantity" := VNum quantity]> {["price" := VNum price]}))
  | Some q =>
      quantity ← on_marketable_loop fuel side quantity price q;
      if negb (quantity =? 0) then
        b ← getB;
        order ← Order_new (_instrument b) client_id side quantity price;
        _insert_order fuel order
      else mret tt
  end.

Definition on_limit (fuel : nat) (side : Side) (quantity price : Z)
    (client_id : string) : M unit :=
  best_queue ← get_best (neg side);
  crossing ← match best_queue with
             | None => mret false
             | Some bq =>
                 q ← getQ bq;
                 mret (smul side (Queue.limit q) <=? smul side price)
             end;
  if crossing : bool then on_marketable fuel side quantity price client_id
  else
    b ← getB;
    order ← Order_new (_instrument b) client_id side quantity price;
    _insert_order fuel order.

(** The [while] loop of [on_market]; [false] when it rejected. *)
Fixpoint on_market_loop (fuel : nat) (side : Side) (quantity remaining : Z)
    (client_id : string) : M bool :=
  if negb (remaining =? 0) then
    match fuel with
    | O => out_of_fuel
    | S fuel' =>
        best ← get_best side;
        match best with
        | None =>
            _reject_market client_id None
              (<["side" := VStr (Side_str side)]>
               {["quantity" := VNum quantity]});;
            mret false
        | Some q =>
            '(order, qty) ← fill_head q remaining;
            o ← getO order;
            (if Order.filled o then
               Queue_remove q order;;
               o ← getO order;
               del_order_map (Order.order_id o)
             else mret tt);;
            qo ← getQ q;
            (if Queue.empty qo then _delete_queue side q else mret tt);;
            b ← getB;
            on_market_loop fuel' side quantity
              (adjust_quantity (_instrument b) (remaining - qty)) client_id
        end
    end
  else mret true.

Definition on_market (fuel : nat) (side : Side) (quantity : Z)
    (client_id : string) : M unit :=
  b ← getB;
  let available := side_get (best_volumes b) side in
  if available <? quantity then
    _reject_market client_id
      (Some (GreaterThanAvailable quantity available))
      (<["side" := VStr (Side_str side)]> {["quantity" := VNum quantity]})
  else
    _ ← on_market_loop fuel side quantity quantity client_id;
    mret tt.

Definition on_cancel (order_id : nat) : M unit :=
  order ← _get_order order_id;
  o ← getO order;
  let queue := Order.queue o in
  let msg := dict_update {["status" := VStr "Cancelled"]} (Order_infos o) in
  let client_id := Order.owner o in
  queue ← the AttributeError queue;
  Queue_remove queue order;;
  o ← getO order;
  add_best_volume (Order.side o) (- Order.quantity o);;
  q ← getQ queue;
  (if Queue.empty q then
     o ← getO order; _delete_queue (Order.side o) queue
   else mret tt);;
  o ← getO order;
  del_order_map (Order.order_id o);;
  call_send_private (Client client_id) msg.

Definition on_amend (fuel : nat) (order_id : nat) (quantity price : Z)
  : M unit :=
  order ← _get_order order_id;
  o ← getO order;
  let side := Order.side o in
  queue ← the AttributeError (Order.queue o);
  Queue_remove queue order;;
  o ← getO order;
  add_best_volume (Order.side o) (- Order.quantity o);;
  q ← getQ queue;
  (if Queue.empty q && negb (Queue.limit q =? price) then
     del_queues (Queue.limit q)
   else mret tt);;
  b ← getB;
  mid ← the TypeError (_curr_mid b);
  if smul side mid <=? smul side price then
    o ← getO order;
    on_marketable fuel side quantity price (Order.owner o)
  else
    q ← getQ queue;
    new_queue ← (if negb (Queue.limit q =? price) then
                   b ← getB;
                   match queues b !! price with
                   | Some nq => mret nq
                   | None => _create_queue fuel side price
                   end
                 else mret queue);
    Order_update order (Some price) (Some quantity) None;;
    Queue_add new_queue order;;
    o ← getO order;
    add_best_volume (Order.side o) quantity;;
    o ← getO order;
    let msg := dict_update {["status" := VStr "Amended"]} (Order_infos o) in
    call_send_private (Client (Order.owner o)) msg.

(** ** Scenarios *)

(** The instrument of [tests/lobsim/orderbook_test.py]: tick 0.001. *)
Definition test_instrument : Instrument :=
  {| lot_size := {| max_qty := 100000000; min_qty := 1000000;
                    step_size := 1000000 |};
     precision := {| price_precision := 4; quote_precision := 3;
                     quantity_precision := 5 |};
     price_details := {| tick_size := 1000; min_price := 100000;
                         max_price := 10000000000 |} |}.

(** Run a list of operations from the empty book. *)
Definition run {A} (m : M A) (w : World) : outcome A * World := m w.

Definition w0 : World := World_init test_instrument true.

(** Prices in thousandths and quantities in units, as the tests write them. *)
Definition px (x : Z) : Z := x * 1000.
Definition qt (x : Z) : Z := x * 1000000.

(** ** Reading the intrusive lists *)

(** The orders met from [start] following [onext]. *)
Fixpoint order_chain (fuel : nat) (oh : gmap oref Order.t)
    (start : option oref) : list oref :=
  match fuel, start with
  | S fuel', Some r =>
      r :: order_chain fuel' oh (oh !! r ≫= Order.onext)
  | _, _ => []
  end.

(** The [ohead ... otail] chain of the queue at [r]. *)
Definition queue_chain (w : World) (r : qref) : list oref :=
  match qheap w !! r with
  | Some q => order_chain (S (size (oheap w))) (oheap w) (Queue.ohead q)
  | None => []
  end.

(** The queues met from [start] following [qnext]. *)
Fixpoint ladder_from (fuel : nat) (qh : gmap qref Queue.t)
    (start : option qref) : list qref :=
  match fuel, start with
  | S fuel', Some r =>
      r :: ladder_from fuel' qh (qh !! r ≫= Queue.qnext)
  | _, _ => []
  end.

Definition ladder (w : World) (s : Side) : list qref :=
  ladder_from (S (size (qheap w))) (qheap w) (side_get (best_queue (book w)) s).

(** Invariant 1 of the data model, without tick alignment. *)
Definition ladder_indexed (w : World) : Prop :=
  forall s r, r ∈ ladder w s ->
    exists q, qheap w !! r = Some q /\ Queue.side q = s
              /\ queues (book w) !! Queue.limit q = Some r.

(** Invariant 3 of the data model. *)
Definition orders_queued (w : World) : Prop :=
  forall id r, order_map (book w) !! id = Some r ->
    exists o qr q, oheap w !! r = Some o /\ Order.queue o = Some qr
      /\ qheap w !! qr = Some q /\ Queue.limit q = Order.price o
      /\ length (filter (fun x => x = r) (queue_chain w qr)) = 1%nat.

(** No order of [order_map] is fully filled. *)
Definition no_filled_order (w : World) : Prop :=
  forall id r o, order_map (book w) !! id = Some r ->
    oheap w !! r = Some o -> Order.filled o = false.

(** The sum of [volume] over the indexed queues of side [s]. *)
Definition side_volume (w : World) (s : Side) : Z :=
  map_fold (fun _ r acc =>
              match qheap w !! r with
              | Some q => if decide (Queue.side q = s)
                          then acc + Queue.volume q else acc
              | None => acc
              end) 0 (queues (book w)).

(** Scenario 1 of the spec: BID 1@2.002, then a marketable ASK 1@2.002. *)
Definition scenario_full_match : M unit :=
  on_limit 10 BID (qt 1) (px 2002) "alice";;
  on_marketable 10 ASK (qt 1) (px 2002) "bob".

(** BID 10@3.000, a market order takes 3 of it, the rest is cancelled. *)
Definition scenario_cancel_partial : M unit :=
  on_limit 10 BID (qt 10) (px 3000) "alice";;
  on_market 10 BID (qt 3) "bob";;
  on_cancel 0.

(** Scenario 6 of the spec: BID 5@3.1, ASK 8@3.9, amend the ask to 12@2.0. *)
Definition scenario_amend_marketable : M unit :=
  on_limit 10 BID (qt 5) (px 3100) "alice";;
  on_limit 10 ASK (qt 8) (px 3900) "carol";;
  on_amend 10 1 (qt 12) (px 2000).

(** BID 10@3.000, then a market order takes 3 of it. *)
Definition scenario_partial_fill : M unit :=
  on_limit 10 BID (qt 10) (px 3000) "alice";;
  on_market 10 BID (qt 3) "bob".



(** ** Invariants of the book *)

(** [P] holds of the Queue object at [r]. *)
Definition with_queue (w : World) (r : qref) (P : Queue.t -> Prop) : Prop :=
  match qheap w !! r with Some q => P q | None => False end.

(** [P] holds of the Order object at [r]. *)
Definition with_order (w : World) (r : oref) (P : Order.t -> Prop) : Prop :=
  match oheap w !! r with Some o => P o | None => False end.

Definition tick_of (w : World) : Z :=
  tick_size (price_details (_instrument (book w))).

(** Invariants 1 and 2 along one side: the walk from [start] with [qnext]
    visits exactly [l]; every queue visited has side [s], is in [queues]
    under its limit as the same object, points back with [qprev] to the
    queue visited before it ([prev] for the first) and has a strictly better
    price than its [qnext]. *)
Fixpoint ladder_ok (w : World) (s : Side) (prev start : option qref)
    (l : list qref) : Prop :=
  match l with
  | [] => start = None
  | r :: l' =>
      start = Some r
      /\ with_queue w r (fun q =>
           Queue.side q = s
           /\ Queue.qprev q = prev
           /\ queues (book w) !! Queue.limit q = Some r
           /\ match Queue.qnext q ≫= (fun n => qheap w !! n) with
              | Some nq => smul s (Queue.limit nq) < smul s (Queue.limit q)
              | None => True
              end
           /\ ladder_ok w s (Some r) (Queue.qnext q) l')
  end.

(** Invariant 6: the spread is not crossed. *)
Definition uncrossed (w : World) : Prop :=
  match side_get (best_queue (book w)) BID,
        side_get (best_queue (book w)) ASK with
  | Some b, Some a =>
      with_queue w b (fun qb =>
        with_queue w a (fun qa => Queue.limit qb < Queue.limit qa))
  | _, _ => True
  end.

(** Prices live on the tick grid, which [adjust_price] keeps. *)
Definition on_tick_grid (w : World) : Prop :=
  0 < tick_of w
  /\ adjust_price (_instrument (book w)) (tick_of w) = tick_of w
  /\ map_Forall (fun k (_ : qref) => is_divisible k (tick_of w) = true)
                (queues (book w)).

(** Every queue of the index is stored under its own limit and is on the
    ladder of its side. *)
Definition index_ok (w : World) : Prop :=
  map_Forall (fun k r =>
    with_queue w r (fun q =>
      Queue.limit q = k /\ r ∈ ladder w (Queue.side q))) (queues (book w)).

(** The invariants of the price ladder: 1, 2 and 6, with the index and the
    tick grid. *)
Definition ladder_inv (w : World) : Prop :=
  ladder_ok w BID None (side_get (best_queue (book w)) BID) (ladder w BID)
  /\ ladder_ok w ASK None (side_get (best_queue (book w)) ASK) (ladder w ASK)
  /\ index_ok w
  /\ uncrossed w
  /\ on_tick_grid w.

(** The limit of the last queue of a ladder. *)
Definition last_limit (w : World) (s : Side) : option Z :=
  last (ladder w s) ≫= (fun r => Queue.limit <$> qheap w !! r).

(** Invariant 7. *)
Definition extremes_ok (w : World) : Prop :=
  min_bid (book w)
  = match last_limit w BID with Some m => Fin m | None => Inf end
  /\ max_ask (book w) = default 0 (last_limit w ASK).

(** The two ends of the order chain of a queue: both [None], or a head and
    a tail in the heap, the tail without successor. *)
Definition chain_ends (w : World) (q : Queue.t) : Prop :=
  match Queue.ohead q, Queue.otail q with
  | None, None => True
  | Some h, Some t =>
      with_order w h (fun _ => True)
      /\ with_order w t (fun ot => Order.onext ot = None)
  | _, _ => False
  end.

(** Every queue of the index is live: its volume is not zero and is a
    value of [_rv]. *)
Definition queues_live (w : World) : Prop :=
  map_Forall (fun (_ : Z) r =>
    with_queue w r (fun q =>
      Queue.volume_precision q = 2%nat
      /\ Queue._rv q (Queue.volume q) = Queue.volume q
      /\ Queue.volume q <> 0
      /\ chain_ends w q)) (queues (book w)).

(** Objects are where the counters say: an order sits at its uuid,
    uuids and queue references in use are below the next ones. *)
Definition heap_ok (w : World) : Prop :=
  map_Forall (fun r o => Order.order_id o = r /\ (r < next_uuid w)%nat)
             (oheap w)
  /\ map_Forall (fun id (_ : oref) => (id < next_uuid w)%nat)
                (order_map (book w))
  /\ map_Forall (fun r (_ : Queue.t) => (r < next_qref w)%nat) (qheap w).

(** [best_volumes] holds values of [adjust_quantity]. *)
Definition volume_rounded (w : World) (s : Side) : Prop :=
  adjust_quantity (_instrument (book w)) (side_get (best_volumes (book w)) s)
  = side_get (best_volumes (book w)) s.

Definition volumes_rounded (w : World) : Prop :=
  volume_rounded w BID /\ volume_rounded w ASK.

Definition book_inv (w : World) : Prop :=
  ladder_inv w /\ extremes_ok w /\ queues_live w /\ heap_ok w
  /\ volumes_rounded w.

(** The invariants can be checked by computation. *)

#[global] Instance with_queue_dec w r P `{forall q, Decision (P q)} :
  Decision (with_queue w r P).
Proof. unfold with_queue. destruct (qheap w !! r); apply _. Defined.

#[global] Instance with_order_dec w r P `{forall o, Decision (P o)} :
  Decision (with_order w r P).
Proof. unfold with_order. destruct (oheap w !! r); apply _. Defined.

#[global] Instance ladder_ok_dec w s prev start l :
  Decision (ladder_ok w s prev start l).
Proof.
  revert prev start. induction l as [|r l IH]; intros prev start; simpl.
  - apply _.
  - apply and_dec; [apply _|]. apply with_queue_dec. intros q.
    repeat (apply and_dec; [apply _|]).
    apply and_dec; [|apply IH].
    destruct (Queue.qnext q ≫= _); apply _.
Defined.

#[global] Instance uncrossed_dec w : Decision (uncrossed w).
Proof.
  unfold uncrossed.
  destruct (side_get (best_queue (book w)) BID);
    [destruct (side_get (best_queue (book w)) ASK)|]; apply _.
Defined.

#[global] Instance chain_ends_dec w q : Decision (chain_ends w q).
Proof.
  unfold chain_ends. destruct (Queue.ohead q), (Queue.otail q); apply _.
Defined.

#[global] Instance ladder_inv_dec w : Decision (ladder_inv w).
Proof. unfold ladder_inv, index_ok, on_tick_grid. apply _. Defined.

#[global] Instance book_inv_dec w : Decision (book_inv w).
Proof.
  unfold book_inv, extremes_ok, queues_live, heap_ok, volumes_rounded,
    volume_rounded.
  apply _.
Defined.

(** A quantity that the roundings of the engine leave alone. *)
Definition exact_quantity (w : World) (quantity : Z) : Prop :=
  adjust_quantity (_instrument (book w)) quantity = quantity
  /\ py_round quantity 2 = quantity.

(** [r] is the ladder predecessor of the price [limit] on side [s]: a queue
    of the ladder with a better price whose [qnext], if any, has a worse
    price. *)
Definition ladder_pred (w : World) (s : Side) (limit : Z) (r : qref) : Prop :=
  r ∈ ladder w s
  /\ with_queue w r (fun q =>
       smul s limit < smul s (Queue.limit q)
       /\ match Queue.qnext q ≫= (fun n => qheap w !! n) with
          | Some nq => smul s (Queue.limit nq) < smul s limit
          | None => True
          end).

(** What [on_limit] followed by [on_cancel] must give back: the book
    fields other than the two mids, and every object that was in a heap. *)
Definition same_book (w w' : World) : Prop :=
  best_volumes (book w') = best_volumes (book w)
  /\ best_queue (book w') = best_queue (book w)
  /\ queues (book w') = queues (book w)
  /\ order_map (book w') = order_map (book w)
  /\ min_bid (book w') = min_bid (book w)
  /\ max_ask (book w') = max_ask (book w)
  /\ (forall r q, qheap w !! r = Some q -> qheap w' !! r = Some q)
  /\ (forall r o, oheap w !! r = Some o -> oheap w' !! r = Some o).

(** A book with three bid levels and two ask levels. *)
Definition scenario_five_levels : M unit :=
  on_limit 1000 BID (qt 5) (px 3100) "alice";;
  on_limit 1000 ASK (qt 11) (px 3500) "bob";;
  on_limit 1000 BID (qt 4) (px 3000) "alice";;
  on_limit 1000 ASK (qt 8) (px 3900) "bob";;
  on_limit 1000 BID (qt 10) (px 3100) "carol";;
  on_limit 1000 BID (qt 2) (px 2990) "carol".

Definition w5 : World := (scenario_five_levels w0).2.

(** What [Queue.remove] takes off the volume of the queue. *)
Definition removed_volume (x : Order.t) : Z :=
  if Order.filled x then Order.last_filled_quantity x
  else Order.remaining x.

(** The test of [on_limit] sends the order to [_insert_order]: the far side
    is empty or its best price is beyond [price]. *)
Definition not_crossing (w : World) (side : Side) (price : Z) : Prop :=
  match side_get (best_queue (book w)) (neg side) with
  | Some a =>
      with_queue w a (fun qa => smul side price < smul side (Queue.limit qa))
  | None => True
  end.

(** [m] run from [w] returns, and its result and final world satisfy [P]. *)
Definition returns {A} (m : M A) (w : World) (P : A -> World -> Prop) : Prop :=
  exists a w', m w = (Return a, w') /\ P a w'.

(** ** Further functions of the sources *)

(** utils.py: [exist_none], [exist_any] and [exist_all], over their
    argument tuple; an argument is a value that may be [None]. *)
Definition is_None {A} (item : option A) : bool :=
  match item with None => true | Some _ => false end.
Definition exist_none {A} (args : list (option A)) : bool :=
  forallb is_None args.
Definition exist_any {A} (args : list (option A)) : bool :=
  negb (exist_none args).
Definition exist_all {A} (args : list (option A)) : bool :=
  forallb (fun item => negb (is_None item)) args.

(** orders.py: [Side.from_str(side)] *)
Definition Side_from_str (side : string) : Side :=
  if bool_decide (side = "BID") then BID else ASK.

(** The dict returned by [Orderbook.get_state]: [ts], and under [b] and [a]
    the [(price, volume)] tuples. *)
Record LobState := {
  state_ts : nat;
  state_b : list (Z * Z);
  state_a : list (Z * Z)
}.

(** The [while] loop of [get_state]: the two cursors [qb] and [qa] and the
    two lists built so far. *)
Fixpoint get_state_loop (fuel : nat) (qb qa : option qref)
    (bids asks : list (Z * Z)) : M (list (Z * Z) * list (Z * Z)) :=
  if exist_any [qb; qa] then
    match fuel with
    | O => out_of_fuel
    | S fuel' =>
        '(bids, qb) ← match qb with
                      | Some r =>
                          q ← getQ r;
                          mret (bids ++ [(Queue.limit q, Queue.volume q)],
                                Queue.qnext q)
                      | None => mret (bids, qb)
                      end;
        '(asks, qa) ← match qa with
                      | Some r =>
                          q ← getQ r;
                          mret (asks ++ [(Queue.limit q, Queue.volume q)],
                                Queue.qnext q)
                      | None => mret (asks, qa)
                      end;
        get_state_loop fuel' qb qa bids asks
    end
  else mret (bids, asks).

Definition get_state (fuel : nat) : M LobState :=
  qb ← get_best BID;
  qa ← get_best ASK;
  '(bids, asks) ← get_state_loop fuel qb qa [] [];
  ts ← now;
  mret {| state_ts := ts; state_b := bids; state_a := asks |}.

(** The [(limit, volume)] pairs of the queues at the references [l]. *)
Definition levels (w : World) (l : list qref) : list (Z * Z) :=
  omap (fun r => (fun q => (Queue.limit q, Queue.volume q)) <$> qheap w !! r) l.

(** What no operation undoes: the log of messages only grows at its end,
    the clock and the two counters never go back, and the instrument and
    the callback stay. *)
Definition extends (w w' : World) : Prop :=
  sent w `prefix_of` sent w'
  /\ (clock w <= clock w')%nat
  /\ (next_uuid w <= next_uuid w')%nat
  /\ (next_qref w <= next_qref w')%nat
  /\ _instrument (book w') = _instrument (book w)
  /\ send_private (book w') = send_private (book w).

(** [m] extends the world it runs in, whatever its outcome. *)
Definition monotone {A} (m : M A) : Prop :=
  forall w, extends w (m w).2.

(** ** The scope of the decimal model *)

(** Values of at most 10^8 in absolute value: in this range binary floating
    point carries the six decimals of the embedding with room to spare, so
    that a sum or a difference of two such decimals, rounded again to at
    most six digits, and the decimal string form of the result, are those of
    exact decimal arithmetic. *)
Definition float_safe (x : Z) : Prop := Z.abs x <= 10 ^ 14.

(** The numbers of the book are in that range and the precisions of the
    instrument are at most [SCALE] digits. *)
Definition float_safe_book (w : World) : Prop :=
  float_safe (at_bid (best_volumes (book w)))
  /\ float_safe (at_ask (best_volumes (book w)))
  /\ map_Forall (fun (_ : qref) q =>
                   float_safe (Queue.limit q) /\ float_safe (Queue.volume q))
                (qheap w)
  /\ (price_precision (precision (_instrument (book w))) <= SCALE)%nat
  /\ (quantity_precision (precision (_instrument (book w))) <= SCALE)%nat.

#[global] Instance float_safe_dec x : Decision (float_safe x).
Proof. unfold float_safe. apply _. Defined.

#[global] Instance float_safe_book_dec w : Decision (float_safe_book w).
Proof. unfold float_safe_book. apply _. Defined.

(** A mid is known as soon as a side has a queue. *)
Definition mid_known (w : World) : Prop :=
  side_get (best_queue (book w)) BID <> None
  \/ side_get (best_queue (book w)) ASK <> None ->
  is_Some (_curr_mid (book w)).

(** The invariants of the ladder as the data model words them: a strictly
    monotone ladder on each side, indexed by [queues], an uncrossed spread
    and limits that are multiples of a positive tick.  Nothing is said of
    what [adjust_price] does to a tick. *)
Definition stated_invariants (w : World) : Prop :=
  ladder_ok w BID None (side_get (best_queue (book w)) BID) (ladder w BID)
  /\ ladder_ok w ASK None (side_get (best_queue (book w)) ASK) (ladder w ASK)
  /\ index_ok w
  /\ uncrossed w
  /\ 0 < tick_of w
  /\ map_Forall (fun k (_ : qref) => is_divisible k (tick_of w) = true)
                (queues (book w)).

#[global] Instance stated_invariants_dec w : Decision (stated_invariants w).
Proof. unfold stated_invariants, index_ok. apply _. Defined.

(** An instrument with tick 0.001 whose prices are kept to two decimals. *)
Definition cent_instrument : Instrument :=
  {| lot_size := {| max_qty := 100000000; min_qty := 1000000;
                    step_size := 1000000 |};
     precision := {| price_precision := 2; quote_precision := 3;
                     quantity_precision := 5 |};
     price_details := {| tick_size := 1000; min_price := 100000;
                         max_price := 10000000000 |} |}.


(** An instrument whose lots go down to 0.001: quantities of three decimals
    are valid, and the quote precision keeps them. *)
Definition fine_instrument : Instrument :=
  {| lot_size := {| max_qty := 100000000; min_qty := 1000;
                    step_size := 1000 |};
     precision := {| price_precision := 4; quote_precision := 3;
                     quantity_precision := 5 |};
     price_details := {| tick_size := 1000; min_price := 100000;
                         max_price := 10000000000 |} |}.

(** BID 0.004@3.000 rests alone. *)
Definition scenario_small_resting : M unit :=
  on_limit 10 BID 4000 (px 3000) "alice".

(** * Proofs *)

(** ** Running monadic code *)

Global Arguments py_round : simpl never.
Global Arguments adjust_price : simpl never.
Global Arguments adjust_quantity : simpl never.
Global Arguments Queue._rv : simpl never.
Global Arguments smul : simpl never.
Global Arguments xmin : simpl never.
Global Arguments half : simpl never.
Global Arguments is_divisible : simpl never.
Global Arguments Order_infos : simpl never.
Global Arguments dict_update : simpl never.
Global Arguments removed_volume : simpl never.

Lemma bind_step {A B} (m : M A) (f : A -> M B) (w w1 : World) (a : A) R :
  m w = (Return a, w1) -> f a w1 = R -> (m ≫= f) w = R.
Proof. intros H1 H2. unfold mbind, M_bind. rewrite H1. exact H2. Qed.

Lemma bind_bind {A B C} (m : M A) (f : A -> M B) (g : B -> M C) (w : World) :
  ((m ≫= f) ≫= g) w = (m ≫= (fun a => f a ≫= g)) w.
Proof. unfold mbind, M_bind. destruct (m w) as [[] ?]; reflexivity. Qed.

Lemma getO_eq r w o : oheap w !! r = Some o -> getO r w = (Return o, w).
Proof. intros H. unfold getO. rewrite H. reflexivity. Qed.

Lemma getQ_eq r w q : qheap w !! r = Some q -> getQ r w = (Return q, w).
Proof. intros H. unfold getQ. rewrite H. reflexivity. Qed.

Lemma modO_eq r f w o :
  oheap w !! r = Some o ->
  modO r f w = (Return tt, set_oheap (<[r := f o]> (oheap w)) w).
Proof.
  intros H. unfold modO. eapply bind_step; [by apply getO_eq|reflexivity].
Qed.

Lemma modQ_eq r f w q :
  qheap w !! r = Some q ->
  modQ r f w = (Return tt, set_qheap (<[r := f q]> (qheap w)) w).
Proof.
  intros H. unfold modQ. eapply bind_step; [by apply getQ_eq|reflexivity].
Qed.

(** Solve a lookup in a heap built by inserts and deletes. *)
Ltac lk := simpl; repeat first
  [ rewrite lookup_insert_eq
  | rewrite lookup_insert_ne by (first [assumption | congruence | lia])
  | rewrite lookup_delete_eq
  | rewrite lookup_delete_ne by (first [assumption | congruence | lia]) ];
  first [eassumption | reflexivity].

(** Run one primitive. *)
Ltac prim := first
  [ apply getO_eq; lk
  | apply getQ_eq; lk
  | apply modO_eq; lk
  | apply modQ_eq; lk
  | reflexivity ].

(** Unfold the field updates and read the fields, so that a world stays a
    record of its components. *)
Ltac norm :=
  cbv beta delta
    [Order.set_oprev Order.set_onext Order.set_queue Order.set_updated
     Order.set_price Order.set_quantity Order.set_remaining
     Order.set_last_filled_quantity
     Queue.set_qprev Queue.set_qnext Queue.set_ohead Queue.set_otail
     Queue.set_volume Queue.set_nb_orders
     set_max_ask set_min_bid set_best_queue set_best_volumes set_queues
     set_order_map set_prev_mid set_curr_mid
     set_book set_qheap set_oheap set_sent set_clock set_next_uuid
     set_next_qref];
  simpl.

Tactic Notation "norm" "in" hyp(H) :=
  cbv beta delta
    [Order.set_oprev Order.set_onext Order.set_queue Order.set_updated
     Order.set_price Order.set_quantity Order.set_remaining
     Order.set_last_filled_quantity
     Queue.set_qprev Queue.set_qnext Queue.set_ohead Queue.set_otail
     Queue.set_volume Queue.set_nb_orders
     set_max_ask set_min_bid set_best_queue set_best_volumes set_queues
     set_order_map set_prev_mid set_curr_mid
     set_book set_qheap set_oheap set_sent set_clock set_next_uuid
     set_next_qref] in H;
  simpl in H.

(** Run the first statement of a sequence. *)
Ltac mstep :=
  lazymatch goal with
  | |- ((_ ≫= _) ≫= _) _ = _ => rewrite bind_bind
  | |- (_ ≫= _) _ = _ => eapply bind_step; [prim | cbn beta; norm]
  end.

Lemma bind_eq {A B} (m : M A) (f : A -> M B) (w w1 : World) (a : A) :
  m w = (Return a, w1) -> (m ≫= f) w = f a w1.
Proof. intros H. unfold mbind, M_bind. by rewrite H. Qed.

Lemma bind_inv {A B} (m : M A) (f : A -> M B) (w w' : World) (y : B) :
  (m ≫= f) w = (Return y, w') ->
  exists a w1, m w = (Return a, w1) /\ f a w1 = (Return y, w').
Proof.
  unfold mbind, M_bind. destruct (m w) as [[a| | |] w1]; try done. eauto.
Qed.

(** Run the first statement of the program of hypothesis [H]. *)
Ltac hstep H :=
  first [ rewrite bind_bind in H
        | erewrite bind_eq in H by prim ];
  cbn beta in H; norm in H.

(** ** Unknown order ids, rejected market orders *)

(** C6: for an [order_id] that is not in [order_map], [on_cancel] and
    [on_amend] both raise [OrderbookException] and the whole world (the book,
    both heaps, the log of notifications) is the one they started from. *)
Theorem unknown_order_raises (fuel : nat) (order_id : nat)
    (quantity price : Z) (w : World) :
  order_map (book w) !! order_id = None ->
  on_cancel order_id w = (Raise OrderbookException, w)
  /\ on_amend fuel order_id quantity price w = (Raise OrderbookException, w).
Proof.
  intros H. unfold on_cancel, on_amend, _get_order, mbind, M_bind, getB.
  rewrite H. split; reflexivity.
Qed.

(** C5, as amended: on a book with a callback installed, a market order for
    more than [best_volumes[side]] returns normally, hands exactly one
    message to [send_private], addressed to the client, with status
    "rejected" and the reason that quotes the available liquidity, and
    leaves the book and both heaps as they were. *)
Theorem on_market_rejects_excess (fuel : nat) (side : Side) (quantity : Z)
    (client_id : string) (w : World) :
  send_private (book w) = true ->
  side_get (best_volumes (book w)) side < quantity ->
  exists msg w',
    on_market fuel side quantity client_id w = (Return tt, w')
    /\ sent w' = sent w ++ [(Client client_id, msg)]
    /\ msg !! "status" = Some (VStr "rejected")
    /\ msg !! "reason"
       = Some (VReason (GreaterThanAvailable quantity
                          (side_get (best_volumes (book w)) side)))
    /\ book w' = book w /\ qheap w' = qheap w /\ oheap w' = oheap w.
Proof.
  intros Hs Hq.
  unfold on_market, mbind, M_bind, getB.
  apply Z.ltb_lt in Hq. rewrite Hq.
  unfold _reject_market, mbind, M_bind, now, call_send_private, mbind,
    M_bind, getB.
  simpl. rewrite Hs. unfold deliver, modW. simpl.
  eexists _, _. split; [reflexivity|]. simpl.
  split; [reflexivity|].
  destruct side; repeat split; try reflexivity; destruct w as [[] ?];
    reflexivity.
Qed.

(** ** Where the code departs from the claims *)

(** C1: after scenario 1 (a resting bid fully filled by [on_marketable]) the
    filled order has left its queue but is still in [order_map]: line 253
    of orderbook.py looks the entry up and does not delete it. *)
Theorem on_marketable_keeps_filled_order :
  let w := (scenario_full_match w0).2 in
  (scenario_full_match w0).1 = Return tt
  /\ order_map (book w) !! 0%nat = Some 0%nat
  /\ (exists o, oheap w !! 0%nat = Some o /\ Order.filled o = true)
  /\ queue_chain w 0%nat = []
  /\ ~ no_filled_order w.
Proof.
  cbv zeta.
  split; [vm_compute; reflexivity|].
  split; [vm_compute; reflexivity|].
  split; [eexists; split; vm_compute; reflexivity|].
  split; [vm_compute; reflexivity|].
  intros H.
  assert (exists o, oheap (scenario_full_match w0).2 !! 0%nat = Some o
                    /\ Order.filled o = true) as (o & Ho & Hf).
  { eexists; split; vm_compute; reflexivity. }
  specialize (H 0%nat 0%nat o).
  rewrite Hf in H. discriminate H; [vm_compute; reflexivity|exact Ho].
Qed.

(** C2: after scenario 1 the order left in [order_map] is in no queue chain,
    so invariant 3 fails after an [on_marketable] that returned. *)
Theorem on_marketable_breaks_orders_queued :
  (scenario_full_match w0).1 = Return tt
  /\ ~ orders_queued (scenario_full_match w0).2.
Proof.
  split; [vm_compute; reflexivity|].
  intros H. destruct (H 0%nat 0%nat) as (o & qr & q & Ho & Hq & Hqr & _ & Hc).
  { vm_compute; reflexivity. }
  assert (Order.queue o = Some 0%nat).
  { revert Ho. vm_compute. intros [= <-]. reflexivity. }
  assert (qr = 0%nat) by congruence. subst qr.
  revert Hc. vm_compute. discriminate.
Qed.

(** After scenario 6 the emptied ask queue at 3.9 is still on the ask ladder
    and no longer in [queues]: [on_amend] deletes the index entry only. *)
Lemma on_amend_breaks_ladder_indexed :
  (scenario_amend_marketable w0).1 = Return tt
  /\ ~ ladder_indexed (scenario_amend_marketable w0).2.
Proof.
  split; [vm_compute; reflexivity|].
  intros H. destruct (H ASK 1%nat) as (q & Hq & _ & Hi).
  { vm_compute. apply list_elem_of_In. right. left. reflexivity. }
  assert (Queue.limit q = 3900000) as E.
  { revert Hq. vm_compute. intros [= <-]. reflexivity. }
  rewrite E in Hi. revert Hi. vm_compute. discriminate.
Qed.

(** C3: cancelling an order that was partially filled (10 placed, 3
    filled) takes the original 10 off [best_volumes], which ends at -3
    while no queue is left on the side. *)
Theorem on_cancel_partial_breaks_volume :
  let w := (scenario_cancel_partial w0).2 in
  (scenario_cancel_partial w0).1 = Return tt
  /\ side_get (best_volumes (book w)) BID = qt (-3)
  /\ side_volume w BID = 0.
Proof. cbv zeta. repeat split; vm_compute; reflexivity. Qed.

(** C4: after scenario 6 (an amend that crosses the mid) the original order
    is in no queue chain but is still in [order_map]. *)
Theorem on_amend_marketable_keeps_order :
  let w := (scenario_amend_marketable w0).2 in
  (scenario_amend_marketable w0).1 = Return tt
  /\ order_map (book w) !! 1%nat = Some 1%nat
  /\ (forall r, 1%nat ∉ queue_chain w r).
Proof.
  cbv zeta. split; [vm_compute; reflexivity|].
  split; [vm_compute; reflexivity|].
  intros r. unfold queue_chain.
  destruct (qheap (scenario_amend_marketable w0).2 !! r) as [q|] eqn:Hq;
    [|apply not_elem_of_nil].
  assert (r ∈ dom (qheap (scenario_amend_marketable w0).2)) as Hd
    by (apply elem_of_dom; eauto).
  assert (dom (qheap (scenario_amend_marketable w0).2)
          = ({[0%nat; 1%nat; 2%nat]} : gset qref)) as E
    by (vm_compute; reflexivity).
  rewrite E in Hd. clear E.
  assert (r = 0%nat \/ r = 1%nat \/ r = 2%nat) as Hr.
  { rewrite !elem_of_union, !elem_of_singleton in Hd. tauto. }
  destruct Hr as [Hr|[Hr|Hr]]; subst r;
    revert Hq; vm_compute; intros [= <-] Hin%list_elem_of_In;
    simpl in Hin; intuition discriminate.
Qed.

(** ** Queue.fill *)

Lemma Order_add_fill_eq (order : oref) (quantity : Z) (w : World)
    (o : Order.t) :
  oheap w !! order = Some o ->
  exists f w1 o',
    Order_add_fill order quantity w = (Return f, w1)
    /\ fill_order_id f = Order.order_id o
    /\ qheap w1 = qheap w /\ sent w1 = sent w
    /\ oheap w1 !! order = Some o' /\ Order.owner o' = Order.owner o.
Proof.
  intros Ho. destruct w as [b qh oh s c nu nq]. simpl in *.
  eexists _, _, _. split.
  - unfold Order_add_fill. do 6 mstep. reflexivity.
  - simpl. do 3 (split; [reflexivity|]). split; [lk|reflexivity].
Qed.

(** With a callback installed, [Queue.fill] sends two messages: "New Fill"
    to the order's id, then "Filled" or "Partial fill" to the owner. *)
Lemma Queue_fill_recipients (self : qref) (order : oref) (quantity : Z)
    (w : World) (q : Queue.t) (o : Order.t) :
  qheap w !! self = Some q -> Queue.notify q = true ->
  oheap w !! order = Some o ->
  exists m1 m2 w',
    Queue_fill self order quantity w = (Return tt, w')
    /\ sent w' = sent w ++ [(OrderUuid (Order.order_id o), m1);
                            (Client (Order.owner o), m2)]
    /\ m1 !! "status" = Some (VStr "New Fill")
    /\ (m2 !! "status" = Some (VStr "Filled")
        \/ m2 !! "status" = Some (VStr "Partial fill")).
Proof.
  intros Hq Hn Ho.
  destruct (Order_add_fill_eq order quantity w o Ho)
    as (f & w1 & o' & E1 & Hf & Hq1 & Hs1 & Ho' & Hown).
  destruct w as [b qh oh s c nu nq].
  destruct w1 as [b1 qh1 oh1 s1 c1 nu1 nq1]. simpl in *. subst qh1 s1.
  unfold Queue_fill, Queue_notify.
  destruct (Order.filled o') eqn:Hfil.
  - eexists _, _, _. split.
    { eapply bind_step; [exact E1|]. cbn beta.
      mstep. rewrite Hn. mstep. mstep. rewrite Hfil. mstep. rewrite Hn.
      mstep. reflexivity. }
    simpl. rewrite <- app_assoc, Hf, Hown. split; [reflexivity|].
    split; [reflexivity|]. left. reflexivity.
  - eexists _, _, _. split.
    { eapply bind_step; [exact E1|]. cbn beta.
      mstep. rewrite Hn. mstep. mstep. rewrite Hfil. mstep. mstep.
      rewrite Hn. mstep. mstep. mstep. mstep. prim. }
    simpl. rewrite <- app_assoc, Hf, Hown. split; [reflexivity|].
    split; [reflexivity|]. right. reflexivity.
Qed.

(** C10: in the partial fill of alice's order (uuid 0) the "New Fill"
    message is handed to the callback with the order's uuid as recipient,
    the "Partial fill" message that follows with the owner. *)
Theorem new_fill_sent_to_order_id :
  let w := (scenario_partial_fill w0).2 in
  (scenario_partial_fill w0).1 = Return tt
  /\ Order.owner <$> oheap w !! 0%nat = Some "alice"
  /\ fst <$> sent w !! 1%nat = Some (OrderUuid 0)
  /\ (sent w !! 1%nat ≫= fun x => x.2 !! "status") = Some (VStr "New Fill")
  /\ fst <$> sent w !! 2%nat = Some (Client "alice")
  /\ (sent w !! 2%nat ≫= fun x => x.2 !! "status")
     = Some (VStr "Partial fill")
  /\ OrderUuid 0 <> Client "alice".
Proof.
  cbv zeta. do 6 (split; [vm_compute; reflexivity|]). discriminate.
Qed.

(** ** Rounding *)

Lemma unit_of_pos p : 0 < unit_of p.
Proof. unfold unit_of. apply Z.pow_pos_nonneg; lia. Qed.

Lemma round_half_even_divide g x : Z.divide g (round_half_even g x).
Proof.
  unfold round_half_even.
  repeat case_match; apply Z.divide_factor_r.
Qed.

Lemma round_half_even_id g x :
  0 < g -> Z.divide g x -> round_half_even g x = x.
Proof.
  intros Hg [k Hk]. subst x. unfold round_half_even.
  rewrite Z.mod_mul, Z.div_mul by lia.
  assert ((2 * 0 <? g) = true) as -> by (apply Z.ltb_lt; lia). reflexivity.
Qed.

Lemma py_round_id x p : Z.divide (unit_of p) x -> py_round x p = x.
Proof. apply round_half_even_id, unit_of_pos. Qed.

Lemma py_round_divide x p : Z.divide (unit_of p) (py_round x p).
Proof. apply round_half_even_divide. Qed.

Lemma is_divisible_true x y : is_divisible x y = true <-> y <> 0 /\ Z.divide y x.
Proof.
  unfold is_divisible. rewrite andb_true_iff, negb_true_iff, Z.eqb_neq, Z.eqb_eq.
  split; intros [H1 H2]; split; try done.
  - by apply Z.mod_divide.
  - by apply Z.mod_divide.
Qed.

(** ** The mid price *)




(** ** Witnesses *)

Lemma unknown_order_raises_witness :
  let w := (on_limit 10 BID (qt 1) (px 2002) "alice" w0).2 in
  order_map (book w) !! 7%nat = None
  /\ on_cancel 7 w = (Raise OrderbookException, w)
  /\ on_amend 10 7 (qt 2) (px 2001) w = (Raise OrderbookException, w).
Proof.
  cbv zeta. split; [vm_compute; reflexivity|].
  apply (unknown_order_raises 10 7 (qt 2) (px 2001)
           (on_limit 10 BID (qt 1) (px 2002) "alice" w0).2).
  vm_compute; reflexivity.
Defined.

Lemma on_market_rejects_excess_witness :
  let w := (on_limit 10 ASK (qt 10) (px 3000) "alice" w0).2 in
  side_get (best_volumes (book w)) ASK = qt 10
  /\ exists msg w',
       on_market 10 ASK (qt 15) "bob" w = (Return tt, w')
       /\ sent w' = sent w ++ [(Client "bob", msg)]
       /\ msg !! "status" = Some (VStr "rejected")
       /\ msg !! "reason"
          = Some (VReason (GreaterThanAvailable (qt 15)
                             (side_get (best_volumes (book w)) ASK)))
       /\ book w' = book w /\ qheap w' = qheap w /\ oheap w' = oheap w.
Proof.
  cbv zeta. split; [vm_compute; reflexivity|].
  apply (on_market_rejects_excess 10 ASK (qt 15) "bob"
           (on_limit 10 ASK (qt 10) (px 3000) "alice" w0).2);
    vm_compute; reflexivity.
Defined.

(** C5 as stated fails on a book built without a callback, the default of
    the constructor: with 10 on the ask side, a market order for 15 is not
    answered by a rejection but raises [TypeError], and no message is
    sent. *)
Lemma on_market_excess_without_callback :
  let w := (on_limit 10 ASK (qt 10) (px 3000) "alice"
              (World_init test_instrument false)).2 in
  side_get (best_volumes (book w)) ASK = qt 10
  /\ (on_market 10 ASK (qt 15) "bob" w).1 = Raise TypeError
  /\ sent (on_market 10 ASK (qt 15) "bob" w).2 = [].
Proof. cbv zeta. repeat split; vm_compute; reflexivity. Qed.

(** ** The price ladder *)

Section ladder_facts.
Variable w : World.
Variable s : Side.

Lemma with_queue_elim r P :
with_queue w r P -> exists q, qheap w !! r = Some q /\ P q.
Proof. unfold with_queue. destruct (qheap w !! r); [eauto|done]. Qed.

Lemma ladder_ok_head prev b l :
ladder_ok w s prev (Some b) l -> exists l', l = b :: l'.
Proof. destruct l as [|r l']; simpl; [done|]. intros [[= ->] _]. eauto. Qed.

Lemma ladder_ok_none prev l : ladder_ok w s prev None l -> l = [].
Proof. destruct l; simpl; [done|]. intros [[=] _]. Qed.

(** What the walk knows of a queue it visits. *)
Lemma ladder_ok_elem prev start l r :
ladder_ok w s prev start l -> r ∈ l ->
exists q, qheap w !! r = Some q /\ Queue.side q = s
/\ queues (book w) !! Queue.limit q = Some r
/\ match Queue.qnext q with
   | None => True
   | Some n =>
       n ∈ l /\ exists nq, qheap w !! n = Some nq
         /\ smul s (Queue.limit nq) < smul s (Queue.limit q)
         /\ Queue.qprev nq = Some r
   end.
Proof.
revert prev start. induction l as [|r0 l IH]; intros prev start H Hin.
- by apply elem_of_nil in Hin.
- simpl in H. destruct H as [-> H].
apply with_queue_elim in H as (q0 & Hq0 & Hs & Hp & Hi & Hn & Hl).
apply elem_of_cons in Hin as [->|Hin].
+ exists q0. do 3 (split; [done|]).
  destruct (Queue.qnext q0) as [n|] eqn:En; [|done].
  apply ladder_ok_head in Hl as Hl'. destruct Hl' as [l' ->].
  split; [apply elem_of_cons; right; apply elem_of_cons; by left|].
  simpl in Hl. destruct Hl as [_ Hl].
  apply with_queue_elim in Hl as (nq & Hnq & _ & Hpn & _).
  exists nq. simpl in Hn. rewrite Hnq in Hn. done.
+ destruct (IH _ _ Hl Hin) as (q & Hq & Hsq & Hiq & Hnq).
  exists q. do 3 (split; [done|]).
  destruct (Queue.qnext q); [|done].
  destruct Hnq as [? ?]. split; [by apply elem_of_cons; right|done].
Qed.

(** Prices get strictly worse along the walk. *)
Lemma ladder_ok_sorted prev start r0 l q0 r :
ladder_ok w s prev start (r0 :: l) -> qheap w !! r0 = Some q0 ->
r ∈ l ->
exists q, qheap w !! r = Some q
/\ smul s (Queue.limit q) < smul s (Queue.limit q0).
Proof.
revert prev start r0 q0. induction l as [|r1 l IH];
intros prev start r0 q0 H Hq0 Hin.
- by apply elem_of_nil in Hin.
- simpl in H. destruct H as [-> H]. unfold with_queue in H at 1.
rewrite Hq0 in H. destruct H as (_ & _ & _ & Hn & Hl).
assert (Hl' := Hl). simpl in Hl'. destruct Hl' as [En Hl'].
apply with_queue_elim in Hl' as (q1 & Hq1 & _).
rewrite En in Hn. simpl in Hn. rewrite Hq1 in Hn.
apply elem_of_cons in Hin as [->|Hin].
+ eauto.
+ destruct (IH _ _ _ _ Hl Hq1 Hin) as (q & Hq & Hlt).
  exists q. split; [done|lia].
Qed.

(** A queue of the walk worse than [r] is at or after the [qnext] of [r]. *)
Lemma ladder_ok_dense prev start l r r' q q' :
ladder_ok w s prev start l -> r ∈ l -> r' ∈ l ->
qheap w !! r = Some q -> qheap w !! r' = Some q' ->
smul s (Queue.limit q') < smul s (Queue.limit q) ->
exists n nq, Queue.qnext q = Some n /\ qheap w !! n = Some nq
/\ smul s (Queue.limit q') <= smul s (Queue.limit nq).
Proof.
revert prev start. induction l as [|r0 l IH];
intros prev start H Hin Hin' Hq Hq' Hlt.
- by apply elem_of_nil in Hin.
- assert (H0 := H). simpl in H. destruct H as [-> H].
apply with_queue_elim in H as (q0 & Hq0 & _ & _ & _ & Hn & Hl).
apply elem_of_cons in Hin as [->|Hin].
+ assert (q0 = q) by congruence. subst q0.
  apply elem_of_cons in Hin' as [->|Hin'].
  { assert (q' = q) by congruence. subst. lia. }
  destruct l as [|r1 l]; [by apply elem_of_nil in Hin'|].
  assert (Hl' := Hl). simpl in Hl'. destruct Hl' as [En Hl'].
  apply with_queue_elim in Hl' as (q1 & Hq1 & _).
  exists r1, q1. do 2 (split; [done|]).
  apply elem_of_cons in Hin' as [->|Hin'].
  * assert (q' = q1) by congruence. subst. lia.
  * destruct (ladder_ok_sorted _ _ _ _ _ _ Hl Hq1 Hin')
      as (q'' & Hq'' & Hlt'').
    assert (q'' = q') by congruence. subst. lia.
+ apply elem_of_cons in Hin' as [->|Hin'].
  { destruct (ladder_ok_sorted _ _ _ _ _ _ H0 Hq' Hin)
      as (q'' & Hq'' & Hlt'').
    assert (q'' = q) by congruence. subst. lia. }
  eapply IH; eauto.
Qed.

(** The last queue of the walk has the worst price. *)
Lemma ladder_ok_last prev start l r q r' q' :
ladder_ok w s prev start l -> last l = Some r -> r' ∈ l ->
qheap w !! r = Some q -> qheap w !! r' = Some q' ->
smul s (Queue.limit q) <= smul s (Queue.limit q').
Proof.
revert prev start. induction l as [|r0 l IH];
intros prev start H Hlast Hin Hq Hq'.
- by apply elem_of_nil in Hin.
- destruct l as [|r1 l].
+ simpl in Hlast. injection Hlast as ->.
  apply list_elem_of_singleton in Hin as ->.
  assert (q' = q) by congruence. subst. lia.
+ assert (r ∈ r1 :: l) as Hrl.
  { rewrite last_cons_cons in Hlast. by apply last_Some_elem_of. }
  apply elem_of_cons in Hin as [->|Hin].
  * destruct (ladder_ok_sorted _ _ _ _ _ _ H Hq' Hrl)
      as (q'' & Hq'' & Hlt'').
    assert (q'' = q) by congruence. subst. lia.
  * simpl in H. destruct H as [-> H].
    apply with_queue_elim in H as (q0 & Hq0 & _ & _ & _ & _ & Hl).
    rewrite last_cons_cons in Hlast.
    eapply IH; eauto.
Qed.
End ladder_facts.

Section inv_facts.
Variable w : World.
Hypothesis Hinv : ladder_inv w.

Lemma inv_ladder s :
ladder_ok w s None (side_get (best_queue (book w)) s) (ladder w s).
Proof. destruct Hinv as (? & ? & _). by destruct s. Qed.

Lemma inv_index k r :
queues (book w) !! k = Some r ->
exists q, qheap w !! r = Some q /\ Queue.limit q = k
        /\ r ∈ ladder w (Queue.side q).
Proof.
intros H. destruct Hinv as (_ & _ & Hi & _).
apply Hi in H. by apply with_queue_elim in H.
Qed.

Lemma inv_elem s r :
r ∈ ladder w s ->
exists q, qheap w !! r = Some q /\ Queue.side q = s
/\ queues (book w) !! Queue.limit q = Some r
/\ match Queue.qnext q with
   | None => True
   | Some n =>
       n ∈ ladder w s /\ exists nq, qheap w !! n = Some nq
         /\ smul s (Queue.limit nq) < smul s (Queue.limit q)
         /\ Queue.qprev nq = Some r
   end.
Proof.
apply ladder_ok_elem
with (prev := None) (start := side_get (best_queue (book w)) s),
inv_ladder.
Qed.

Lemma inv_best s b :
side_get (best_queue (book w)) s = Some b ->
b ∈ ladder w s
/\ exists qb, qheap w !! b = Some qb /\ Queue.qprev qb = None
 /\ forall r q, r ∈ ladder w s -> qheap w !! r = Some q ->
      smul s (Queue.limit q) <= smul s (Queue.limit qb).
Proof.
intros Hb. pose proof (inv_ladder s) as Hl. rewrite Hb in Hl.
destruct (ladder_ok_head _ _ _ _ _ Hl) as [l' El].
rewrite El in Hl |- *. split; [apply elem_of_cons; by left|].
assert (Hl' := Hl). simpl in Hl'. destruct Hl' as [_ Hl'].
apply with_queue_elim in Hl' as (qb & Hqb & _ & Hp & _).
exists qb. do 2 (split; [done|]).
intros r q [->|Hin]%elem_of_cons Hq.
- assert (q = qb) by congruence. subst. lia.
- destruct (ladder_ok_sorted _ _ _ _ _ _ _ _ Hl Hqb Hin)
  as (q' & Hq' & Hlt).
assert (q' = q) by congruence. subst. lia.
Qed.

Lemma inv_best_none s :
side_get (best_queue (book w)) s = None -> ladder w s = [].
Proof.
intros Hb. pose proof (inv_ladder s) as Hl. rewrite Hb in Hl.
by apply ladder_ok_none in Hl.
Qed.

Lemma inv_ladder_best s r :
r ∈ ladder w s -> exists b, side_get (best_queue (book w)) s = Some b.
Proof.
intros Hin. destruct (side_get (best_queue (book w)) s) eqn:E; [eauto|].
apply inv_best_none in E. rewrite E in Hin. by apply elem_of_nil in Hin.
Qed.

(** Every bid is below every ask. *)
Lemma inv_uncrossed rb ra qb qa :
rb ∈ ladder w BID -> ra ∈ ladder w ASK ->
qheap w !! rb = Some qb -> qheap w !! ra = Some qa ->
Queue.limit qb < Queue.limit qa.
Proof.
intros Hb Ha Hqb Hqa.
destruct (inv_ladder_best _ _ Hb) as [bb Ebb].
destruct (inv_ladder_best _ _ Ha) as [ba Eba].
destruct (inv_best _ _ Ebb) as (_ & qbb & Hqbb & _ & Hmaxb).
destruct (inv_best _ _ Eba) as (_ & qba & Hqba & _ & Hmaxa).
specialize (Hmaxb _ _ Hb Hqb). specialize (Hmaxa _ _ Ha Hqa).
destruct Hinv as (_ & _ & _ & Hu & _). unfold uncrossed in Hu.
rewrite Ebb, Eba in Hu. unfold with_queue in Hu.
rewrite Hqbb, Hqba in Hu. unfold smul in *. simpl in *. lia.
Qed.

Lemma inv_tick_pos : 0 < tick_of w.
Proof. by destruct Hinv as (_ & _ & _ & _ & ? & _). Qed.

Lemma inv_grid k r :
queues (book w) !! k = Some r -> Z.divide (tick_of w) k.
Proof.
intros H. destruct Hinv as (_ & _ & _ & _ & _ & _ & Hg).
apply Hg in H. by apply is_divisible_true in H as [_ ?].
Qed.

(** [adjust_price] leaves the prices of the grid alone. *)
Lemma inv_adjust_grid x :
Z.divide (tick_of w) x -> adjust_price (_instrument (book w)) x = x.
Proof.
intros Hx. destruct Hinv as (_ & _ & _ & _ & _ & Ht & _).
apply py_round_id. etrans; [|exact Hx].
unfold adjust_price in Ht.
pose proof (py_round_divide (tick_of w)
            (price_precision (precision (_instrument (book w))))) as Hd.
by rewrite Ht in Hd.
Qed.
End inv_facts.

(** ** Finding the predecessor queue *)

Lemma least_hit (P : nat -> Prop) `{forall n, Decision (P n)} (d : nat) :
  (1 <= d)%nat -> P d ->
  exists n, (1 <= n <= d)%nat /\ P n
            /\ forall j, (1 <= j < n)%nat -> ~ P j.
Proof.
  intros Hd HP.
  assert (forall d, (forall j, (1 <= j <= d)%nat -> ~ P j)
            \/ exists n, (1 <= n <= d)%nat /\ P n
                         /\ forall j, (1 <= j < n)%nat -> ~ P j) as Q.
  { clear d Hd HP. induction d as [|d [IH|(n & Hn & HPn & Hleast)]].
    - left. intros j Hj. lia.
    - destruct (decide (P (S d))) as [Hy|Hn].
      + right. exists (S d). split; [lia|]. split; [done|].
        intros j Hj. apply IH. lia.
      + left. intros j Hj. destruct (decide (j = S d)) as [->|]; [done|].
        apply IH. lia.
    - right. exists n. split; [lia|done]. }
  destruct (Q d) as [Hnone|Hsome]; [|done].
  exfalso. apply (Hnone d); [lia|done].
Qed.

Lemma grid_distance (t x y : Z) :
  0 < t -> Z.divide t x -> Z.divide t y -> x < y ->
  exists d, (1 <= d)%nat /\ y = x + Z.of_nat d * t.
Proof.
  intros Ht [a Ha] [b Hb] Hlt. exists (Z.to_nat (b - a)).
  assert (a < b) by nia. split; [lia|].
  rewrite Z2Nat.id by lia. subst. ring.
Qed.

Section find_prev.
Variable w : World.
Hypothesis Hinv : ladder_inv w.
Variable s : Side.

Let st := smul s (tick_of w).

Lemma find_loop_unfold (fuel : nat) (cur : Z) :
_find_prev_queue_loop (S fuel) cur s w
= match queues (book w) !! adjust_price (_instrument (book w)) (cur + st)
with
| Some q => (Return q, w)
| None => _find_prev_queue_loop fuel
            (adjust_price (_instrument (book w)) (cur + st)) s w
end.
Proof.
simpl. unfold get_tick_size, mbind, M_bind, getB, mret, M_ret. simpl.
fold (tick_of w). fold st.
destruct (queues (book w) !! _); reflexivity.
Qed.

Lemma find_loop_hit (n fuel : nat) (cur : Z) (r : qref) :
Z.divide (tick_of w) cur -> (1 <= n)%nat ->
(forall j, (1 <= j < n)%nat ->
 queues (book w) !! (cur + Z.of_nat j * st) = None) ->
queues (book w) !! (cur + Z.of_nat n * st) = Some r ->
(n <= fuel)%nat ->
_find_prev_queue_loop fuel cur s w = (Return r, w).
Proof.
revert fuel cur. induction n as [|n IH]; intros fuel cur Hcur Hn Hmiss Hhit Hf;
[lia|].
destruct fuel as [|fuel]; [lia|]. rewrite find_loop_unfold.
assert (Z.divide (tick_of w) (cur + st)) as Hnext.
{ apply Z.divide_add_r; [done|]. unfold st, smul.
apply Z.divide_mul_r, Z.divide_refl. }
rewrite (inv_adjust_grid w Hinv) by done.
destruct n as [|n].
- replace (cur + Z.of_nat 1 * st) with (cur + st) in Hhit by lia.
rewrite Hhit. reflexivity.
- assert (queues (book w) !! (cur + st) = None) as ->.
{ replace (cur + st) with (cur + Z.of_nat 1 * st) by lia.
  apply Hmiss. lia. }
apply IH; [done|lia| |  |lia].
+ intros j Hj. replace (cur + st + Z.of_nat j * st)
    with (cur + Z.of_nat (S j) * st) by lia. apply Hmiss. lia.
+ replace (cur + st + Z.of_nat (S n) * st)
    with (cur + Z.of_nat (S (S n)) * st) by lia. done.
Qed.

Lemma find_loop_returns (fuel : nat) (cur : Z) (r : qref) (w' : World) :
Z.divide (tick_of w) cur ->
_find_prev_queue_loop fuel cur s w = (Return r, w') ->
w' = w
/\ exists n, (1 <= n)%nat
   /\ (forall j, (1 <= j < n)%nat ->
         queues (book w) !! (cur + Z.of_nat j * st) = None)
   /\ queues (book w) !! (cur + Z.of_nat n * st) = Some r.
Proof.
revert cur. induction fuel as [|fuel IH]; intros cur Hcur;
[discriminate|].
assert (Z.divide (tick_of w) (cur + st)) as Hnext.
{ apply Z.divide_add_r; [done|]. unfold st, smul.
apply Z.divide_mul_r, Z.divide_refl. }
rewrite find_loop_unfold, (inv_adjust_grid w Hinv) by done.
destruct (queues (book w) !! (cur + st)) as [r'|] eqn:E.
- intros [= -> <-]. split; [done|]. exists 1%nat. split; [lia|].
split; [intros j Hj; lia|].
replace (cur + Z.of_nat 1 * st) with (cur + st) by lia. done.
- intros H. destruct (IH _ Hnext H) as (-> & n & Hn & Hmiss & Hhit).
split; [done|]. exists (S n). split; [lia|]. split.
+ intros j Hj. destruct (decide (j = 1%nat)) as [->|].
  * replace (cur + Z.of_nat 1 * st) with (cur + st) by lia. done.
  * replace (cur + Z.of_nat j * st)
      with (cur + st + Z.of_nat (j - 1) * st) by lia.
    apply Hmiss. lia.
+ replace (cur + Z.of_nat (S n) * st)
    with (cur + st + Z.of_nat n * st) by lia. done.
Qed.
End find_prev.

(** C9, as amended: when the side has a best queue, [limit] is on the tick
    grid, is not better than the best price and has no queue, the stated
    invariants of the ladder hold, and moreover [adjust_price] leaves the
    tick unchanged (the price precision, of at most six digits, can hold a
    tick) and the two prices are within the range where floats carry the
    decimals, the scan of [_find_prev_queue] returns after [n] probes for
    every fuel of at least [n], leaves the world alone, and returns the
    first queue met on the walked path, which is the one ladder predecessor
    of [limit]. *)
Theorem find_prev_queue_terminates (w : World) (s : Side) (limit : Z)
    (rb : qref) (qb : Queue.t) :
  stated_invariants w ->
  adjust_price (_instrument (book w)) (tick_of w) = tick_of w ->
  (price_precision (precision (_instrument (book w))) <= SCALE)%nat ->
  side_get (best_queue (book w)) s = Some rb -> qheap w !! rb = Some qb ->
  smul s limit <= smul s (Queue.limit qb) ->
  queues (book w) !! limit = None ->
  is_divisible limit (tick_of w) = true ->
  float_safe limit -> float_safe (Queue.limit qb) ->
  exists (n : nat) (r : qref),
    (1 <= n)%nat
    /\ (forall fuel, (n <= fuel)%nat ->
          _find_prev_queue fuel limit s w = (Return r, w))
    /\ queues (book w) !! (limit + Z.of_nat n * smul s (tick_of w)) = Some r
    /\ (forall j, (1 <= j < n)%nat ->
          queues (book w) !! (limit + Z.of_nat j * smul s (tick_of w)) = None)
    /\ ladder_pred w s limit r
    /\ (forall r', ladder_pred w s limit r' -> r' = r).
Proof.
  intros (Hlb & Hla & Hix & Hun & Htk & Hgr) Hadj _ Hbest Hqb Hle Hnone Hdiv
    _ _.
  assert (ladder_inv w) as Hinv by (unfold ladder_inv, on_tick_grid; tauto).
  pose proof (inv_tick_pos w Hinv) as Htick.
  apply is_divisible_true in Hdiv as [_ Hdiv].
  destruct (inv_best w Hinv s rb Hbest) as (Hrb & qb' & Hqb' & _ & Hmax).
  assert (qb' = qb) by congruence. subst qb'.
  destruct (inv_elem w Hinv s rb Hrb) as (qb' & Hqb'' & Hsb & Hib & _).
  assert (qb' = qb) by congruence. subst qb'.
  pose proof (inv_grid w Hinv _ _ Hib) as Hgb.
  assert (Queue.limit qb <> limit) as Hne by (intros E; congruence).
  set (st := smul s (tick_of w)).
  (* the best queue is on the walked path *)
  assert (exists d, (1 <= d)%nat /\ Queue.limit qb = limit + Z.of_nat d * st)
    as (d & Hd & Ed).
  { destruct s; unfold st, smul, value in *.
    - destruct (grid_distance (tick_of w) limit (Queue.limit qb))
        as (d & Hd & Ed); [done|done|done|lia|].
      exists d. split; [done|lia].
    - destruct (grid_distance (tick_of w) (Queue.limit qb) limit)
        as (d & Hd & Ed); [done|done|done|lia|].
      exists d. split; [done|lia]. }
  destruct (least_hit
              (fun j => is_Some (queues (book w) !! (limit + Z.of_nat j * st)))
              d Hd) as (n & Hn & [r Hr] & Hleast).
  { rewrite <- Ed. eauto. }
  assert (forall j, (1 <= j < n)%nat ->
            queues (book w) !! (limit + Z.of_nat j * st) = None) as Hmiss.
  { intros j Hj. apply eq_None_not_Some. by apply Hleast. }
  exists n, r. split; [lia|]. split.
  { intros fuel Hf. unfold _find_prev_queue.
    apply (find_loop_hit w Hinv s n fuel limit r);
      [done|lia|exact Hmiss|exact Hr|lia]. }
  do 2 (split; [done|]).
  (* the queue found *)
  destruct (inv_index w Hinv _ _ Hr) as (q & Hq & Elim & Hlad).
  assert (smul s limit < smul s (Queue.limit q)
          /\ smul s (Queue.limit q) <= smul s (Queue.limit qb)) as [Hlo Hhi].
  { rewrite Elim, Ed. destruct s; unfold st, smul, value in *; nia. }
  assert (Queue.side q = s) as Hside.
  { destruct (decide (Queue.side q = s)) as [|Hns]; [done|exfalso].
    destruct s, (Queue.side q) eqn:Es; try done.
    - pose proof (inv_uncrossed w Hinv _ _ _ _ Hrb Hlad Hqb Hq).
      unfold smul, value in *. lia.
    - pose proof (inv_uncrossed w Hinv _ _ _ _ Hlad Hrb Hq Hqb).
      unfold smul, value in *. lia. }
  rewrite Hside in Hlad.
  assert (ladder_pred w s limit r) as Hpred.
  { split; [done|]. unfold with_queue. rewrite Hq. split; [done|].
    destruct (inv_elem w Hinv s r Hlad) as (q' & Hq' & _ & _ & Hnext).
    assert (q' = q) by congruence. subst q'.
    destruct (Queue.qnext q) as [nx|]; [|done]. simpl.
    destruct Hnext as (Hnx & nq & Hnq & Hlt & _). rewrite Hnq.
    destruct (inv_elem w Hinv s nx Hnx) as (nq' & Hnq' & _ & Hinx & _).
    assert (nq' = nq) by congruence. subst nq'.
    destruct (Z_lt_le_dec (smul s (Queue.limit nq)) (smul s limit))
      as [|Hge]; [done|exfalso].
    assert (Queue.limit nq <> limit) by (intros E; congruence).
    pose proof (inv_grid w Hinv _ _ Hinx) as Hgn.
    assert (exists j, (1 <= j < n)%nat
                      /\ Queue.limit nq = limit + Z.of_nat j * st)
      as (j & Hj & Ej).
    { rewrite Elim in Hlt.
      destruct s; unfold st, smul, value in *.
      - destruct (grid_distance (tick_of w) limit (Queue.limit nq))
          as (j & Hj & Ej); [done|done|done|lia|].
        exists j. split; [|lia].
        assert (Z.of_nat j < Z.of_nat n) by nia. lia.
      - destruct (grid_distance (tick_of w) (Queue.limit nq) limit)
          as (j & Hj & Ej); [done|done|done|lia|].
        exists j. split; [|lia].
        assert (Z.of_nat j < Z.of_nat n) by nia. lia. }
    rewrite Ej, (Hmiss j Hj) in Hinx. done. }
  split; [done|].
  (* no other queue is a predecessor *)
  intros r' [Hlad' Hp']. apply with_queue_elim in Hp' as (q' & Hq' & Hlo' & Hnx').
  destruct Hpred as [_ Hp]. unfold with_queue in Hp. rewrite Hq in Hp.
  destruct Hp as [_ Hnx].
  destruct (inv_elem w Hinv s r' Hlad') as (q'' & Hq'' & _ & Hi' & _).
  assert (q'' = q') by congruence. subst q''.
  destruct (inv_elem w Hinv s r Hlad) as (q3 & Hq3 & _ & Hi & _).
  assert (q3 = q) by congruence. subst q3.
  destruct (Z.lt_trichotomy (smul s (Queue.limit q')) (smul s (Queue.limit q)))
    as [Hlt|[Heq|Hgt]].
  - exfalso.
    destruct (ladder_ok_dense w s _ _ _ _ _ _ _ (inv_ladder w Hinv s)
                Hlad Hlad' Hq Hq' Hlt) as (nx & nq & En & Hnq & Hge).
    rewrite En in Hnx. simpl in Hnx. rewrite Hnq in Hnx. lia.
  - assert (Queue.limit q' = Queue.limit q) as E
      by (destruct s; unfold smul, value in *; lia).
    rewrite E in Hi'. congruence.
  - exfalso.
    destruct (ladder_ok_dense w s _ _ _ _ _ _ _ (inv_ladder w Hinv s)
                Hlad' Hlad Hq' Hq Hgt) as (nx & nq & En & Hnq & Hge).
    rewrite En in Hnx'. simpl in Hnx'. rewrite Hnq in Hnx'. lia.
Qed.

Lemma find_prev_queue_terminates_witness :
  exists (n : nat) (r : qref),
    (1 <= n)%nat
    /\ (forall fuel, (n <= fuel)%nat ->
          _find_prev_queue fuel (px 3050) BID w5 = (Return r, w5))
    /\ queues (book w5) !! (px 3050 + Z.of_nat n * smul BID (tick_of w5))
       = Some r
    /\ (forall j, (1 <= j < n)%nat ->
          queues (book w5) !! (px 3050 + Z.of_nat j * smul BID (tick_of w5))
          = None)
    /\ ladder_pred w5 BID (px 3050) r
    /\ (forall r', ladder_pred w5 BID (px 3050) r' -> r' = r).
Proof.
  apply (find_prev_queue_terminates w5 BID (px 3050) 0%nat
           (Queue.mk (px 3100) BID true 2 None (Some 2%nat) (Some 0%nat)
                     (Some 4%nat) (qt 15) 2)).
  - refine (@bool_decide_unpack _ (stated_invariants_dec _) _).
    vm_compute. exact I.
  - vm_compute. reflexivity.
  - vm_compute. lia.
  - vm_compute. reflexivity.
  - vm_compute. reflexivity.
  - vm_compute. discriminate.
  - vm_compute. reflexivity.
  - vm_compute. reflexivity.
  - vm_compute. discriminate.
  - vm_compute. discriminate.
Defined.

(** When [adjust_price] rounds the step of one tick away, every probe of
    the scan is the price it started from, and the scan does not return. *)
Lemma scan_swallowed (w : World) (s : Side) (cur : Z) (fuel : nat) :
  adjust_price (_instrument (book w)) (cur + smul s (tick_of w)) = cur ->
  queues (book w) !! cur = None ->
  _find_prev_queue fuel cur s w = (OutOfFuel, w).
Proof.
  intros Hadj Hnone. unfold _find_prev_queue.
  induction fuel as [|fuel IH]; [reflexivity|].
  rewrite find_loop_unfold, Hadj, Hnone. exact IH.
Qed.

(** C9 as stated fails. For an instrument with tick 0.001 whose prices are
    kept to two decimals and a book with one bid at 1.00, the price 0.99 is
    tick-aligned, not better than the best bid and without a queue, and the
    invariants of the ladder hold; but [adjust_price(0.99 + 0.001)] is 0.99
    again, so the scan never reaches 1.00: it runs out of any fuel. *)
Lemma scan_never_advances :
  let w := (on_limit 10 BID (qt 1) (px 1000) "alice"
              (World_init cent_instrument true)).2 in
  stated_invariants w
  /\ side_get (best_queue (book w)) BID = Some 0%nat
  /\ Queue.limit <$> qheap w !! 0%nat = Some (px 1000)
  /\ smul BID (px 990) <= smul BID (px 1000)
  /\ queues (book w) !! px 990 = None
  /\ is_divisible (px 990) (tick_of w) = true
  /\ adjust_price (_instrument (book w)) (px 990 + smul BID (tick_of w))
     = px 990
  /\ forall fuel, _find_prev_queue fuel (px 990) BID w = (OutOfFuel, w).
Proof.
  cbv zeta. split.
  { refine (@bool_decide_unpack _ (stated_invariants_dec _) _).
    vm_compute. exact I. }
  do 2 (split; [vm_compute; reflexivity|]).
  split; [vm_compute; discriminate|].
  do 3 (split; [vm_compute; reflexivity|]).
  intros fuel. apply scan_swallowed; vm_compute; reflexivity.
Qed.


(** ** Rounding, validation and the small helpers *)

(** What the two validity tests accept: the values within the bounds that
    are whole multiples of a non-zero tick, resp. step. *)
Lemma is_valid_spec (i : Instrument) (x : Z) :
  (is_valid_price i x = true <->
     min_price (price_details i) <= x <= max_price (price_details i)
     /\ tick_size (price_details i) <> 0
     /\ Z.divide (tick_size (price_details i)) x)
  /\ (is_valid_quantity i x = true <->
        min_qty (lot_size i) <= x <= max_qty (lot_size i)
        /\ step_size (lot_size i) <> 0
        /\ Z.divide (step_size (lot_size i)) x).
Proof.
  unfold is_valid_price, is_valid_quantity.
  split.
  - destruct (Z.ltb_spec x (min_price (price_details i)));
      [split; [done|lia]|].
    destruct (Z.ltb_spec (max_price (price_details i)) x);
      [split; [done|lia]|].
    destruct (is_divisible x _) eqn:E; simpl.
    + apply is_divisible_true in E. split; [intros _|done]. split; [lia|done].
    + split; [done|]. intros (_ & H1 & H2).
      assert (is_divisible x (tick_size (price_details i)) = true) as E'
        by (by apply is_divisible_true).
      congruence.
  - destruct (Z.ltb_spec (max_qty (lot_size i)) x); [split; [done|lia]|].
    destruct (Z.ltb_spec x (min_qty (lot_size i))); [split; [done|lia]|].
    destruct (is_divisible x _) eqn:E; simpl.
    + apply is_divisible_true in E. split; [intros _|done]. split; [lia|done].
    + split; [done|]. intros (_ & H1 & H2).
      assert (is_divisible x (step_size (lot_size i)) = true) as E'
        by (by apply is_divisible_true).
      congruence.
Qed.

(** X4: a valid price is left alone by [adjust_price] as soon as the tick
    itself is. *)
Theorem valid_price_is_adjusted (i : Instrument) (price : Z) :
  adjust_price i (tick_size (price_details i)) = tick_size (price_details i) ->
  is_valid_price i price = true ->
  adjust_price i price = price.
Proof.
  intros Ht Hv. apply is_valid_spec in Hv as (_ & _ & Hd).
  apply py_round_id. etrans; [|exact Hd].
  rewrite <- Ht. apply py_round_divide.
Qed.

Lemma valid_price_is_adjusted_witness :
  adjust_price test_instrument 3005000 = 3005000.
Proof.
  apply (valid_price_is_adjusted test_instrument 3005000); reflexivity.
Defined.

(** X5: [Side.from_str] undoes [str(side)], and only the string "BID" is
    read as the bid side; [-side] is an involution and flips the sign of
    [side * x]. *)
Theorem Side_conversions (s : Side) (t : string) (x : Z) :
  Side_from_str (Side_str s) = s
  /\ (Side_from_str t = BID <-> t = "BID")
  /\ neg (neg s) = s
  /\ smul (neg s) x = - smul s x.
Proof.
  split; [by destruct s|]. split.
  - unfold Side_from_str. case_bool_decide; split; done.
  - split; [by destruct s|]. unfold smul. destruct s; simpl; lia.
Qed.

(** X6: [exist_any] holds exactly when some argument is not [None];
    [exist_all] implies it for a non-empty argument list, and with no
    argument at all [exist_none] and [exist_all] both hold. *)
Theorem exist_any_spec {A} (args : list (option A)) :
  (exist_any args = true <-> exists a, Some a ∈ args)
  /\ (exist_all args = true -> args <> [] -> exist_any args = true)
  /\ (exist_none args = true /\ exist_all args = true <-> args = []).
Proof.
  unfold exist_any, exist_none, exist_all.
  induction args as [|[a|] l (IH1 & IH2 & IH3)]; simpl.
  - split; [|done].
    split; [done|]. intros (a & Ha). by apply elem_of_nil in Ha.
  - split; [|split; [done|]].
    + split; [|done]. intros _. exists a. left.
    + split; [intros [? _]; done|done].
  - split; [|split; [done|]].
    + rewrite IH1. split.
      * intros (a & Ha). exists a. by right.
      * intros (a & Ha). apply elem_of_cons in Ha as [?|?]; [done|eauto].
    + split; [intros [_ ?]; done|done].
Qed.

(** ** Rejections and degenerate market orders *)

(** X7: on a book built without a callback ([send_private] is [None], the
    default of the constructor) a market order for more than the available
    volume raises [TypeError]; only the clock has moved. *)
Theorem on_market_without_callback (fuel : nat) (side : Side) (quantity : Z)
    (client_id : string) (w : World) :
  send_private (book w) = false ->
  side_get (best_volumes (book w)) side < quantity ->
  on_market fuel side quantity client_id w
  = (Raise TypeError, set_clock (S (clock w)) w).
Proof.
  intros Hs Hlt. apply Z.ltb_lt in Hlt.
  destruct w as [b qh oh sn c nu nq]. simpl in *.
  unfold on_market, _reject_market, call_send_private, mbind, M_bind, getB,
    now. simpl. rewrite Hlt. simpl. rewrite Hs. reflexivity.
Qed.

Lemma on_market_without_callback_witness :
  on_market 10 BID (qt 1) "bob" (World_init test_instrument false)
  = (Raise TypeError,
     set_clock (S (clock (World_init test_instrument false)))
       (World_init test_instrument false)).
Proof.
  apply (on_market_without_callback 10 BID (qt 1) "bob"
           (World_init test_instrument false)).
  - reflexivity.
  - simpl. unfold qt. lia.
Defined.

(** X8: [on_marketable] on a book with a callback, when the opposite side
    has no queue: it returns,
    the client gets one message with status "rejected", the default reason
    and the side, quantity and price of the order, and but for the clock and
    this message the world is as it was. *)
Theorem on_marketable_no_liquidity (fuel : nat) (side : Side)
    (quantity price : Z) (client_id : string) (w : World) :
  send_private (book w) = true ->
  side_get (best_queue (book w)) (neg side) = None ->
  exists msg,
    on_marketable fuel side quantity price client_id w
    = (Return tt,
       set_sent (sent w ++ [(Client client_id, msg)])
         (set_clock (S (clock w)) w))
    /\ msg !! "status" = Some (VStr "rejected")
    /\ msg !! "reason" = Some (VReason NoAvailableLiquidity)
    /\ msg !! "engine_ts" = Some (VTime (clock w))
    /\ msg !! "side" = Some (VStr (Side_str side))
    /\ msg !! "quantity" = Some (VNum quantity)
    /\ msg !! "price" = Some (VNum price).
Proof.
  intros Hs Hb. destruct w as [b qh oh sn c nu nq]. simpl in *.
  eexists. split.
  - unfold on_marketable, get_best, _reject_market, call_send_private, mbind,
      M_bind, getB, now. simpl. rewrite Hb. simpl. rewrite Hs. reflexivity.
  - simpl. unfold dict_update.
    repeat split; apply lookup_union_Some_raw; vm_compute; auto.
Qed.

Lemma on_marketable_no_liquidity_witness :
  exists msg,
    on_marketable 10 BID (qt 1) (px 3000) "bob" w0
    = (Return tt,
       set_sent (sent w0 ++ [(Client "bob", msg)]) (set_clock (S (clock w0)) w0))
    /\ msg !! "status" = Some (VStr "rejected")
    /\ msg !! "reason" = Some (VReason NoAvailableLiquidity)
    /\ msg !! "engine_ts" = Some (VTime (clock w0))
    /\ msg !! "side" = Some (VStr (Side_str BID))
    /\ msg !! "quantity" = Some (VNum (qt 1))
    /\ msg !! "price" = Some (VNum (px 3000)).
Proof.
  apply (on_marketable_no_liquidity 10 BID (qt 1) (px 3000) "bob" w0);
    reflexivity.
Defined.

(** X9: a market order for quantity 0 on a side whose booked volume is not
    negative does nothing at all: no fill, no message, the same world. *)
Theorem on_market_zero (fuel : nat) (side : Side) (client_id : string)
    (w : World) :
  0 <= side_get (best_volumes (book w)) side ->
  on_market fuel side 0 client_id w = (Return tt, w).
Proof.
  intros H. apply Z.ltb_ge in H.
  unfold on_market, mbind, M_bind, getB. simpl. rewrite H.
  destruct fuel; reflexivity.
Qed.

Lemma on_market_zero_witness :
  on_market 0 ASK 0 "bob" w5 = (Return tt, w5).
Proof.
  apply (on_market_zero 0 ASK "bob" w5). vm_compute. discriminate.
Defined.

(** ** Fills on an order *)

(** X10: [Order.add_fill] with the whole remaining quantity: the [Fill]
    carries the order's id and price, the quantity and the time of the
    call, and the order is left filled, with the quantity in
    [last_filled_quantity]; the book, the queues and the log are
    untouched. *)
Theorem add_fill_remaining (order : oref) (w : World) (o : Order.t) :
  oheap w !! order = Some o ->
  exists w1 o',
    Order_add_fill order (Order.remaining o) w
    = (Return (Build_Fill (Order.order_id o) (Order.price o)
                 (Order.remaining o) (clock w)), w1)
    /\ oheap w1 !! order = Some o'
    /\ Order.filled o' = true
    /\ Order.last_filled_quantity o' = Order.remaining o
    /\ Order.updated o' = clock w
    /\ book w1 = book w /\ qheap w1 = qheap w /\ sent w1 = sent w.
Proof.
  intros Ho. destruct w as [b qh oh s c nu nq]. simpl in *.
  eexists _, _. split.
  - unfold Order_add_fill, now. do 6 mstep. reflexivity.
  - simpl. split; [lk|]. unfold Order.filled. simpl.
    rewrite Z.sub_diag, (py_round_id 0) by apply Z.divide_0_r.
    repeat split.
Qed.

Lemma add_fill_remaining_witness :
  exists o, oheap w5 !! 0%nat = Some o /\ exists w1 o',
    Order_add_fill 0%nat (Order.remaining o) w5
    = (Return (Build_Fill (Order.order_id o) (Order.price o)
                 (Order.remaining o) (clock w5)), w1)
    /\ oheap w1 !! 0%nat = Some o'
    /\ Order.filled o' = true
    /\ Order.last_filled_quantity o' = Order.remaining o
    /\ Order.updated o' = clock w5
    /\ book w1 = book w5 /\ qheap w1 = qheap w5 /\ sent w1 = sent w5.
Proof.
  eexists. split; [vm_compute; reflexivity|].
  apply (add_fill_remaining 0%nat w5). vm_compute. reflexivity.
Defined.


(** ** The mid price *)

(** X12: whatever its outcome, [_update_mid] changes nothing but the two
    mids; and when it returns with a queue on at least one side, it leaves
    a current mid. *)
Theorem update_mid_frame (w : World) :
  exists pm' cm',
    (_update_mid w).2
    = set_book (set_curr_mid cm' (set_prev_mid pm' (book w))) w
    /\ ((_update_mid w).1 = Return tt ->
        side_get (best_queue (book w)) BID <> None
        \/ side_get (best_queue (book w)) ASK <> None ->
        is_Some cm').
Proof.
  destruct w as [[ma mb [bb ba] bv qs om pm cm ins sp] qh oh sn c nu nq].
  unfold _update_mid, get_best, get_tick_size, getB, getQ, modB, modW, the,
    set_book, set_curr_mid, set_prev_mid, mbind, M_bind, mret, M_ret, raise.
  simpl.
  destruct ba as [ra|], bb as [rb|]; simpl.
  - destruct (qh !! ra) as [qa|]; simpl; [|by eexists _, _].
    destruct (qh !! rb) as [qb|]; simpl; [|by eexists _, _].
    destruct (is_divisible _ _); simpl.
    + destruct cm as [p|]; simpl; [|by eexists _, _].
      destruct (_ <? p); simpl; eexists _, _; split; eauto.
    + eexists _, _; split; eauto.
  - destruct (qh !! ra) as [qa|]; simpl; [|by eexists _, _].
    eexists _, _; split; eauto.
  - destruct (qh !! rb) as [qb|]; simpl; [|by eexists _, _].
    eexists _, _; split; eauto.
  - eexists _, _; split; [done|]. intros _ [?|?]; done.
Qed.

(** ** Queue operations on explicit worlds *)

Section queue_ops.
Variables (b : Orderbook) (qh : gmap qref Queue.t) (oh : gmap oref Order.t).
Variables (sn : list (ident * message)) (c nu nq : nat).
Variables (r : qref) (o : oref) (q : Queue.t) (ord : Order.t).
Hypothesis Hq : qh !! r = Some q.
Hypothesis Ho : oh !! o = Some ord.

(** [Queue.add] on a queue without orders. *)
Lemma Queue_add_first :
Queue.ohead q = None ->
exists sn',
  Queue_add r o (mkWorld b qh oh sn c nu nq)
  = (Return tt,
     mkWorld b
       (<[r := Queue.set_nb_orders (Queue.nb_orders q + 1)
                 (Queue.set_volume
                    (py_round (Queue.volume q + Order.quantity ord)
                              (Queue.volume_precision q))
                    (Queue.set_otail (Some o)
                       (Queue.set_ohead (Some o) q)))]> qh)
       (<[o := Order.set_updated c (Order.set_queue (Some r) ord)]> oh)
       sn' (S c) nu nq).
Proof.
intros Hh. unfold Queue_add, Order_update, Queue_notify.
destruct q as [lim sd [] vp qp qn h t vol nb]; simpl in Hh; subst h.
- eexists. repeat mstep.
  unfold deliver, modW. norm. rewrite !insert_insert_eq. reflexivity.
- eexists. repeat mstep.
  unfold mret, M_ret. norm. rewrite !insert_insert_eq. reflexivity.
Qed.

(** [Queue.add] after the tail [t]. *)
Lemma Queue_add_append (h t : oref) (ot : Order.t) :
Queue.ohead q = Some h -> Queue.otail q = Some t ->
t <> o -> oh !! t = Some ot ->
exists sn',
  Queue_add r o (mkWorld b qh oh sn c nu nq)
  = (Return tt,
     mkWorld b
       (<[r := Queue.set_nb_orders (Queue.nb_orders q + 1)
                 (Queue.set_volume
                    (py_round (Queue.volume q + Order.quantity ord)
                              (Queue.volume_precision q))
                    (Queue.set_otail (Some o) q))]> qh)
       (<[o := Order.set_updated c
                 (Order.set_queue (Some r)
                    (Order.set_onext None
                       (Order.set_oprev (Some t) ord)))]>
          (<[t := Order.set_onext (Some o) ot]> oh))
       sn' (S c) nu nq).
Proof.
intros Hh Ht Hne Hot. unfold Queue_add, Order_update, Queue_notify.
destruct q as [lim sd [] vp qp qn h' t' vol nb]; simpl in Hh, Ht;
  subst h' t'.
- eexists. repeat mstep.
  unfold deliver, modW. norm. rewrite !insert_insert_eq.
  rewrite (insert_insert_ne _ t o) by done. rewrite !insert_insert_eq.
  reflexivity.
- eexists. repeat mstep.
  unfold mret, M_ret. norm. rewrite !insert_insert_eq.
  rewrite (insert_insert_ne _ t o) by done. rewrite !insert_insert_eq.
  reflexivity.
Qed.

(** [Queue.remove] of the only order. *)
Lemma Queue_remove_sole :
Queue.ohead q = Some o -> Queue.otail q = Some o ->
Queue_remove r o (mkWorld b qh oh sn c nu nq)
= (Return tt,
   mkWorld b
     (<[r := Queue.set_otail None
               (Queue.set_ohead None
                  (Queue.set_volume
                     (py_round (Queue.volume q - removed_volume ord)
                               (Queue.volume_precision q))
                     (Queue.set_nb_orders (Queue.nb_orders q - 1) q)))]>
        qh)
     oh sn c nu nq).
Proof.
intros Hh Ht. unfold Queue_remove, Order_eq, removed_volume.
destruct q as [lim sd nt vp qp qn h' t' vol nb]; simpl in Hh, Ht;
  subst h' t'.
destruct (Order.filled ord) eqn:Hf.
- repeat mstep. rewrite Hf. repeat mstep.
  rewrite bool_decide_eq_true_2 by done. repeat mstep.
  rewrite bool_decide_eq_true_2 by done. repeat mstep.
  unfold modQ, getQ, modW. repeat mstep.
  norm. rewrite !insert_insert_eq. reflexivity.
- repeat mstep. rewrite Hf. repeat mstep.
  rewrite bool_decide_eq_true_2 by done. repeat mstep.
  rewrite bool_decide_eq_true_2 by done. repeat mstep.
  unfold modQ, getQ, modW. repeat mstep.
  norm. rewrite !insert_insert_eq. reflexivity.
Qed.

(** [Queue.remove] of the tail order, which has a predecessor [t]. *)
Lemma Queue_remove_tail (h t : oref) (oh0 ot : Order.t) :
Queue.ohead q = Some h -> Queue.otail q = Some o ->
oh !! h = Some oh0 -> Order.order_id oh0 <> Order.order_id ord ->
Order.oprev ord = Some t -> oh !! t = Some ot ->
Queue_remove r o (mkWorld b qh oh sn c nu nq)
= (Return tt,
   mkWorld b
     (<[r := Queue.set_otail (Some t)
               (Queue.set_volume
                  (py_round (Queue.volume q - removed_volume ord)
                            (Queue.volume_precision q))
                  (Queue.set_nb_orders (Queue.nb_orders q - 1) q))]> qh)
     (<[t := Order.set_onext None ot]> oh) sn c nu nq).
Proof.
intros Hh Ht Hoh0 Hne Hp Hot.
unfold Queue_remove, Order_eq, removed_volume.
destruct q as [lim sd nt vp qp qn h' t' vol nb]; simpl in Hh, Ht;
  subst h' t'.
destruct (Order.filled ord) eqn:Hf.
- repeat mstep. rewrite Hf. repeat mstep.
  rewrite bool_decide_eq_false_2 by done. repeat mstep.
  rewrite bool_decide_eq_true_2 by done. repeat mstep.
  rewrite Hp. repeat mstep.
  unfold modO, getO, modW. repeat mstep.
  norm. rewrite !insert_insert_eq. reflexivity.
- repeat mstep. rewrite Hf. repeat mstep.
  rewrite bool_decide_eq_false_2 by done. repeat mstep.
  rewrite bool_decide_eq_true_2 by done. repeat mstep.
  rewrite Hp. repeat mstep.
  unfold modO, getO, modW. repeat mstep.
  norm. rewrite !insert_insert_eq. reflexivity.
Qed.
End queue_ops.

(** ** What [_update_mid] writes *)

Section update_mid.
Variables (ma : Z) (mb : xfloat) (bq : per_side (option qref)).
Variables (bv : per_side Z) (qs : gmap Z qref) (om : gmap nat oref).
Variables (pm cm : option Z) (ins : Instrument) (sp : bool).
Variables (qh : gmap qref Queue.t) (oh : gmap oref Order.t).
Variables (sn : list (ident * message)) (c nu nq : nat).

Let W := mkWorld (mkBook ma mb bq bv qs om pm cm ins sp) qh oh sn c nu nq.

(** [_update_mid] writes the two mids and nothing else, and leaves a mid
  when a side has a queue. *)
Lemma update_mid_inv (W' : World) :
_update_mid W = (Return tt, W') ->
exists pm' cm',
  W' = mkWorld (mkBook ma mb bq bv qs om pm' cm' ins sp) qh oh sn c nu nq
  /\ (at_bid bq <> None \/ at_ask bq <> None -> is_Some cm').
Proof.
unfold W, _update_mid, get_best, get_tick_size. intros H.
repeat hstep H.
destruct (at_ask bq) as [ra|] eqn:Ea, (at_bid bq) as [rb|] eqn:Eb.
- repeat hstep H.
  destruct (qh !! ra) as [qa|] eqn:Hqa;
    [|unfold mbind, M_bind, getQ in H; simpl in H; rewrite Hqa in H; done].
  repeat hstep H.
  destruct (qh !! rb) as [qb|] eqn:Hqb;
    [|unfold mbind, M_bind, getQ in H; simpl in H; rewrite Hqb in H; done].
  repeat hstep H.
  destruct (is_divisible _ _).
  + repeat hstep H. destruct cm as [p|]; [|done].
    simpl in H. repeat hstep H.
    destruct (_ <? p); repeat hstep H;
      injection H as <-; eexists _, _; split; eauto.
  + repeat hstep H. injection H as <-. eexists _, _; split; eauto.
- repeat hstep H.
  destruct (qh !! ra) as [qa|] eqn:Hqa;
    [|unfold mbind, M_bind, getQ in H; simpl in H; rewrite Hqa in H; done].
  repeat hstep H. injection H as <-. eexists _, _; split; eauto.
- repeat hstep H.
  destruct (qh !! rb) as [qb|] eqn:Hqb;
    [|unfold mbind, M_bind, getQ in H; simpl in H; rewrite Hqb in H; done].
  repeat hstep H. injection H as <-. eexists _, _; split; eauto.
- repeat hstep H. injection H as <-. eexists _, _; split; [done|].
  intros [?|?]; done.
Qed.

(** [_update_mid] returns when the best queues are in the heap and, with
  both sides present, a mid is set. *)
Lemma update_mid_returns :
(forall s r, side_get bq s = Some r -> is_Some (qh !! r)) ->
(at_bid bq <> None -> at_ask bq <> None -> is_Some cm) ->
exists pm' cm',
  _update_mid W
  = (Return tt,
     mkWorld (mkBook ma mb bq bv qs om pm' cm' ins sp) qh oh sn c nu nq).
Proof.
intros Hheap Hmid. unfold W, _update_mid, get_best, get_tick_size.
destruct (at_ask bq) as [ra|] eqn:Ea, (at_bid bq) as [rb|] eqn:Eb.
- destruct (Hheap ASK ra Ea) as [qa Hqa].
  destruct (Hheap BID rb Eb) as [qb Hqb].
  destruct Hmid as [p ->]; [done|done|].
  destruct (is_divisible
              (adjust_price ins (half (Queue.limit qa + Queue.limit qb)))
              (tick_size (price_details ins))) eqn:Hd.
  + destruct (adjust_price ins (half (Queue.limit qa + Queue.limit qb))
              <? p) eqn:Hlt.
    * eexists _, _. repeat mstep. rewrite Ea, Eb. repeat mstep.
      rewrite Hd. repeat mstep. rewrite Hlt. repeat mstep. reflexivity.
    * eexists _, _. repeat mstep. rewrite Ea, Eb. repeat mstep.
      rewrite Hd. repeat mstep. rewrite Hlt. repeat mstep. reflexivity.
  + eexists _, _. repeat mstep. rewrite Ea, Eb. repeat mstep.
    rewrite Hd. repeat mstep. reflexivity.
- destruct (Hheap ASK ra Ea) as [qa Hqa].
  eexists _, _. repeat mstep. rewrite Ea, Eb. repeat mstep. reflexivity.
- destruct (Hheap BID rb Eb) as [qb Hqb].
  eexists _, _. repeat mstep. rewrite Ea, Eb. repeat mstep. reflexivity.
- eexists _, _. repeat mstep. rewrite Ea, Eb. repeat mstep. reflexivity.
Qed.
End update_mid.

(** ** Rounded volumes *)

Lemma py_round_fixed x p : py_round x p = x <-> Z.divide (unit_of p) x.
Proof.
  split; [|apply py_round_id].
  intros H. rewrite <- H. apply py_round_divide.
Qed.

(** Adding then removing a rounded quantity gives back a rounded volume. *)
Lemma py_round_add_sub v q p :
  py_round v p = v -> py_round q p = q ->
  py_round (py_round (v + q) p - q) p = v.
Proof.
  rewrite !py_round_fixed. intros Hv Hq.
  rewrite (py_round_id (v + q)) by (by apply Z.divide_add_r).
  replace (v + q - q) with v by lia. by apply py_round_id.
Qed.

Lemma side_get_set {A} (d : per_side A) s v : side_get (side_set d s v) s = v.
Proof. by destruct s. Qed.

Lemma side_get_set_ne {A} (d : per_side A) s s' v :
  s <> s' -> side_get (side_set d s v) s' = side_get d s'.
Proof. by destruct s, s'. Qed.

Lemma side_set_set {A} (d : per_side A) s v v' :
  side_set (side_set d s v) s v' = side_set d s v'.
Proof. by destruct s. Qed.

Lemma side_set_get {A} (d : per_side A) s : side_set d s (side_get d s) = d.
Proof. by destruct s, d. Qed.

Lemma on_limit_not_crossing fuel side quantity price client_id w :
  not_crossing w side price ->
  on_limit fuel side quantity price client_id w
  = (Order_new (_instrument (book w)) client_id side quantity price
     ≫= _insert_order fuel) w.
Proof.
  unfold not_crossing, on_limit, get_best. intros H.
  unfold mbind at 1 2 3. unfold M_bind at 1 2 3. unfold getB at 1. simpl.
  unfold mret, M_ret.
  destruct (side_get (best_queue (book w)) (neg side)) as [a|].
  - apply with_queue_elim in H as (qa & Hqa & Hlt).
    unfold mbind at 1. unfold M_bind at 1. unfold mbind at 1. unfold M_bind at 1.
    unfold getQ at 1. rewrite Hqa.
    apply Z.leb_gt in Hlt. rewrite Hlt. reflexivity.
  - reflexivity.
Qed.

(** ** A limit order and its cancellation *)

Lemma Order_new_eq ins client side quantity price b qh oh sn c nu nq :
  Order_new ins client side quantity price (mkWorld b qh oh sn c nu nq)
  = (Return nu,
     mkWorld b qh
       (<[nu := Order.mk client ins side quantity price None None None
                         c c nu quantity 0]> oh) sn (S c) (S nu) nq).
Proof. reflexivity. Qed.

Lemma removed_volume_fresh client ins side quantity price op on qu up cr id :
  removed_volume (Order.mk client ins side quantity price op on qu up cr id
                           quantity 0) = quantity.
Proof.
  unfold removed_volume, Order.filled. simpl.
  destruct (Z.eqb_spec quantity 0); congruence.
Qed.

(** Two lookups at one key agree. *)
Ltac clash H1 H2 :=
  let X := fresh in
  pose proof (eq_trans (eq_sym H1) H2) as X; discriminate X.

Section roundtrip.
Variables (ma : Z) (mb : xfloat) (bq : per_side (option qref)).
Variables (bv : per_side Z) (qs : gmap Z qref) (om : gmap nat oref).
Variables (pm cm : option Z) (ins : Instrument).
Variables (qh : gmap qref Queue.t) (oh : gmap oref Order.t).
Variables (sn : list (ident * message)) (c nu nq : nat).
Variables (fuel : nat) (side : Side) (quantity price : Z).
Variable (client_id : string).

Let W := mkWorld (mkBook ma mb bq bv qs om pm cm ins true) qh oh sn c nu nq.

Hypothesis Hom : om !! nu = None.
Hypothesis Hfresh : oh !! nu = None.
Hypothesis Hbv :
adjust_quantity ins (side_get bv side) = side_get bv side.
Hypothesis Hq1 : adjust_quantity ins quantity = quantity.
Hypothesis Hq2 : py_round quantity 2 = quantity.

Lemma best_volume_back :
side_set
  (side_set bv side (adjust_quantity ins (side_get bv side + quantity)))
  side
  (adjust_quantity ins
     (adjust_quantity ins (side_get bv side + quantity) + - quantity))
= bv.
Proof.
rewrite side_set_set. unfold adjust_quantity in *.
replace (py_round (side_get bv side + quantity)
           (quantity_precision (precision ins)) + - quantity)
  with (py_round (side_get bv side + quantity)
           (quantity_precision (precision ins)) - quantity) by lia.
rewrite py_round_add_sub by done. apply side_set_get.
Qed.

(** The order joins a queue that is there and leaves it again. *)
Lemma roundtrip_existing (r : qref) (q : Queue.t) (w1 : World) :
qs !! price = Some r -> qh !! r = Some q ->
Queue.volume_precision q = 2%nat ->
py_round (Queue.volume q) 2 = Queue.volume q ->
Queue.volume q <> 0 ->
(Queue.ohead q = None /\ Queue.otail q = None
 \/ exists h t oh0 ot,
      Queue.ohead q = Some h /\ Queue.otail q = Some t
      /\ oh !! h = Some oh0 /\ Order.order_id oh0 = h
      /\ oh !! t = Some ot /\ Order.onext ot = None) ->
(Order_new ins client_id side quantity price ≫= _insert_order fuel) W
= (Return tt, w1) ->
order_map (book w1) !! nu = Some nu
/\ exists w2, on_cancel nu w1 = (Return tt, w2) /\ same_book W w2.
Proof.
intros Hqs Hq Hvp Hvr Hv0 Hends H. unfold W in *.
rewrite (bind_eq _ _ _ _ _ (Order_new_eq _ _ _ _ _ _ _ _ _ _ _ _)) in H.
unfold _insert_order in H. repeat hstep H. rewrite Hqs in H.
repeat hstep H.
destruct Hends as [[Hh Ht]|(h & t & oh0 & ot & Hh & Ht & Hoh0 & Hid & Hot & Hnx)].
- (* the queue has no order *)
  edestruct (Queue_add_first
               (mkBook ma mb bq bv qs (<[nu:=nu]> om) pm cm ins true)
               qh (<[nu := Order.mk client_id ins side quantity price None
                              None None c c nu quantity 0]> oh)
               sn (S c) (S nu) nq r nu q) as [sn1 E1];
    [done|lk|done|].
  rewrite (bind_eq _ _ _ _ _ E1) in H. clear E1.
  unfold add_best_volume in H. repeat hstep H.
  injection H as <-. simpl. split; [lk|].
  eexists. split.
  { unfold on_cancel, _get_order. repeat mstep.
    rewrite lookup_insert_eq. repeat mstep.
    eapply bind_step.
    { apply Queue_remove_sole; [lk|lk|done|done]. }
    cbn beta. simpl. unfold add_best_volume, del_order_map, call_send_private.
    repeat mstep. norm. rewrite removed_volume_fresh. rewrite Hvp.
    rewrite py_round_add_sub by done.
    unfold Queue.empty. simpl.
    rewrite (proj2 (Z.eqb_neq _ _) Hv0).
    repeat mstep. rewrite lookup_insert_eq. repeat mstep. reflexivity. }
  unfold same_book. simpl.
  split; [rewrite ?side_get_set; apply best_volume_back|]. do 2 (split; [done|]).
  split; [by rewrite delete_insert_id|]. do 2 (split; [done|]). split.
  + intros r' q' Hr'. destruct (decide (r' = r)) as [->|].
    * rewrite !insert_insert_eq, lookup_insert_eq.
      assert (q' = q) by congruence. subst q'.
      destruct q. simpl in *. subst.
      replace (nb_orders + 1 - 1) with nb_orders by lia. reflexivity.
    * by rewrite !lookup_insert_ne.
  + intros r' o' Hr'. rewrite insert_insert_eq.
    rewrite lookup_insert_ne; [done|]. intros E. subst r'.
    clash Hfresh Hr'.
- (* the queue has orders *)
  assert (t <> nu) by (intros E; rewrite E in Hot; clash Hfresh Hot).
  assert (h <> nu) by (intros E; rewrite E in Hoh0; clash Hfresh Hoh0).
  assert (forall A A0 x, exists oh0',
            (<[nu := A]> (<[t := Order.set_onext x ot]>
                            (<[nu := A0]> oh))) !! h
            = Some oh0' /\ Order.order_id oh0' = h) as Hhead.
  { intros A A0 x. rewrite lookup_insert_ne by done.
    destruct (decide (h = t)) as [E|].
    - assert (oh0 = ot) as Eo by (rewrite E in Hoh0; congruence).
      exists (Order.set_onext x ot). split.
      + rewrite E. apply lookup_insert_eq.
      + simpl. rewrite <- Eo. exact Hid.
    - rewrite !lookup_insert_ne by done. eauto. }
  edestruct (Queue_add_append
               (mkBook ma mb bq bv qs (<[nu:=nu]> om) pm cm ins true)
               qh (<[nu := Order.mk client_id ins side quantity price None
                              None None c c nu quantity 0]> oh)
               sn (S c) (S nu) nq r nu q) as [sn1 E1];
    [done|lk|done|done|done|lk|].
  rewrite (bind_eq _ _ _ _ _ E1) in H. clear E1.
  unfold add_best_volume in H. repeat hstep H.
  injection H as <-. simpl. split; [lk|].
  edestruct (Hhead
               (Order.mk client_id ins side quantity price (Some t) None
                         (Some r) (S c) c nu quantity 0)
               (Order.mk client_id ins side quantity price None None
                         None c c nu quantity 0) (Some nu))
    as (oh0' & Hh' & Hid').
  norm in Hh'.
  eexists. split.
  { unfold on_cancel, _get_order. repeat mstep.
    rewrite lookup_insert_eq. repeat mstep.
    eapply bind_step.
    { eapply Queue_remove_tail with (h := h) (t := t) (oh0 := oh0');
        [lk|lk|simpl; done|simpl; done|exact Hh'
        |simpl; congruence
        |simpl; done|lk]. }
    cbn beta. simpl. unfold add_best_volume, del_order_map, call_send_private.
    repeat mstep. norm. rewrite removed_volume_fresh. rewrite Hvp.
    rewrite py_round_add_sub by done.
    unfold Queue.empty. simpl.
    rewrite (proj2 (Z.eqb_neq _ _) Hv0).
    repeat mstep. rewrite lookup_insert_eq. repeat mstep. reflexivity. }
  unfold same_book. simpl.
  split; [rewrite ?side_get_set; apply best_volume_back|]. do 2 (split; [done|]).
  split; [by rewrite delete_insert_id|]. do 2 (split; [done|]). split.
  + intros r' q' Hr'. destruct (decide (r' = r)) as [->|].
    * rewrite !insert_insert_eq, lookup_insert_eq.
      assert (q' = q) by congruence. subst q'.
      destruct q. simpl in *. subst.
      replace (nb_orders + 1 - 1) with nb_orders by lia. reflexivity.
    * by rewrite !lookup_insert_ne.
  + intros r' o' Hr'. 
    destruct (decide (r' = t)) as [->|].
    * rewrite lookup_insert_eq.
      assert (o' = ot) by congruence. subst o'.
      destruct ot. simpl in *. subst. reflexivity.
    * repeat (rewrite lookup_insert_ne;
              [|first [congruence
                      |intros E; subst r'; clash Hfresh Hr']]).
      done.
Qed.
End roundtrip.

Lemma heap_ok_fresh w :
  heap_ok w ->
  order_map (book w) !! next_uuid w = None
  /\ oheap w !! next_uuid w = None
  /\ qheap w !! next_qref w = None.
Proof.
  intros (Ho & Hm & Hq). repeat split; apply eq_None_not_Some; intros [x Hx].
  - apply Hm in Hx. simpl in Hx. lia.
  - apply Ho in Hx. simpl in Hx. lia.
  - apply Hq in Hx. simpl in Hx. lia.
Qed.

Lemma with_order_elim w r P :
  with_order w r P -> exists o, oheap w !! r = Some o /\ P o.
Proof. unfold with_order. destruct (oheap w !! r); [eauto|done]. Qed.

(** The round trip at a price level that already has a queue. *)
Lemma limit_then_cancel_existing_level (fuel : nat) (side : Side)
    (quantity price : Z) (client_id : string) (w w1 : World) (r : qref) :
  book_inv w -> send_private (book w) = true ->
  exact_quantity w quantity ->
  not_crossing w side price ->
  queues (book w) !! price = Some r ->
  on_limit fuel side quantity price client_id w = (Return tt, w1) ->
  order_map (book w1) !! next_uuid w = Some (next_uuid w)
  /\ exists w2,
       on_cancel (next_uuid w) w1 = (Return tt, w2) /\ same_book w w2.
Proof.
  intros (Hlad & Hext & Hlive & Hheap & Hvol) Hsp [Hq1 Hq2] Hnc Hqs H.
  rewrite on_limit_not_crossing in H by done.
  destruct (heap_ok_fresh w Hheap) as (Hom & Hfresh & _).
  pose proof (Hlive _ _ Hqs) as Hr. simpl in Hr.
  apply with_queue_elim in Hr as (q & Hq & Hvp & Hrv & Hv0 & Hends).
  destruct w as [[ma mb bq bv qs om pm cm ins sp] qh oh sn c nu nq].
  simpl in *. subst sp.
  eapply (roundtrip_existing ma mb bq bv qs om pm cm ins qh oh sn c nu nq
            fuel side quantity price client_id Hom Hfresh) with (r := r) (q := q);
    try done.
  - destruct side; apply Hvol.
  - unfold Queue._rv in Hrv. by rewrite Hvp in Hrv.
  - unfold chain_ends in Hends.
    destruct (Queue.ohead q) as [h|], (Queue.otail q) as [t|]; try done;
      [right|by left].
    destruct Hends as [Hh Ht].
    apply with_order_elim in Hh as (oh0 & Hoh0 & _).
    apply with_order_elim in Ht as (ot & Hot & Hnx).
    exists h, t, oh0, ot. repeat split; try done.
    destruct Hheap as (Ho & _). apply Ho in Hoh0. simpl in Hoh0. tauto.
Qed.


(** ** The state report *)

Section get_state_facts.
Variable w : World.

Lemma get_state_loop_ladders (fuel : nat) :
forall (sb sa : Side) (lb la : list qref) (pb pa qb qa : option qref)
     (bids asks : list (Z * Z)),
ladder_ok w sb pb qb lb -> ladder_ok w sa pa qa la ->
(length lb <= fuel)%nat -> (length la <= fuel)%nat ->
get_state_loop fuel qb qa bids asks w
= (Return (bids ++ levels w lb, asks ++ levels w la), w).
Proof.
induction fuel as [|fuel IH]; intros sb sa lb la pb pa qb qa bids asks Hb Ha Lb La.
- destruct lb; [|simpl in Lb; lia]. destruct la; [|simpl in La; lia].
simpl in Hb, Ha. subst. simpl. by rewrite !app_nil_r.
- destruct lb as [|rb lb], la as [|ra la]; simpl in Hb, Ha.
+ subst. simpl. by rewrite !app_nil_r.
+ destruct Ha as (-> & Ha). subst qb.
  apply with_queue_elim in Ha as (q & Hq & _ & _ & _ & _ & Ha).
  cbn [get_state_loop exist_any exist_none forallb is_None negb andb].
  repeat mstep.
  rewrite (IH sb sa [] la None (Some ra))
    by (simpl in *; first [done | lia]).
  unfold levels. simpl. rewrite Hq. simpl. by rewrite <- app_assoc.
+ destruct Hb as (-> & Hb). subst qa.
  apply with_queue_elim in Hb as (q & Hq & _ & _ & _ & _ & Hb).
  cbn [get_state_loop exist_any exist_none forallb is_None negb andb].
  repeat mstep.
  rewrite (IH sb sa lb [] (Some rb) None)
    by (simpl in *; first [done | lia]).
  unfold levels. simpl. rewrite Hq. simpl. by rewrite <- app_assoc.
+ destruct Hb as (-> & Hb). destruct Ha as (-> & Ha).
  apply with_queue_elim in Hb as (q & Hq & _ & _ & _ & _ & Hb).
  apply with_queue_elim in Ha as (q' & Hq' & _ & _ & _ & _ & Ha).
  cbn [get_state_loop exist_any exist_none forallb is_None negb andb].
  repeat mstep.
  rewrite (IH sb sa lb la (Some rb) (Some ra))
    by (simpl in *; first [done | lia]).
  unfold levels. simpl. rewrite Hq, Hq'. simpl. by rewrite <- !app_assoc.
Qed.

End get_state_facts.

(** X13: on a book whose ladders are well formed, [get_state] returns (with
    fuel for the longer ladder) the time of the call and, best price first,
    the limit and volume of every queue of the bid ladder under [b] and of
    the ask ladder under [a]; it changes nothing but the clock. *)
Theorem get_state_reports_ladders (fuel : nat) (w : World) :
  ladder_inv w ->
  (length (ladder w BID) <= fuel)%nat ->
  (length (ladder w ASK) <= fuel)%nat ->
  get_state fuel w
  = (Return {| state_ts := clock w;
               state_b := levels w (ladder w BID);
               state_a := levels w (ladder w ASK) |},
     set_clock (S (clock w)) w).
Proof.
  intros (Hb & Ha & _) Lb La. unfold get_state, get_best.
  repeat mstep.
  eapply bind_step; [by eapply (get_state_loop_ladders w fuel BID ASK)|].
  destruct w; reflexivity.
Qed.

Lemma get_state_reports_ladders_witness :
  get_state 3 w5
  = (Return {| state_ts := clock w5;
               state_b := levels w5 (ladder w5 BID);
               state_a := levels w5 (ladder w5 ASK) |},
     set_clock (S (clock w5)) w5).
Proof.
  apply (get_state_reports_ladders 3 w5).
  - refine (@bool_decide_unpack _ (ladder_inv_dec _) _). vm_compute. exact I.
  - vm_compute. lia.
  - vm_compute. lia.
Defined.

(** ** A new queue and its deletion *)


Lemma py_round_zero p : py_round 0 p = 0.
Proof. apply py_round_id, Z.divide_0_r. Qed.

Lemma returns_bind {A B} (m : M A) (f : A -> M B) (w w1 : World) (a : A)
    (P : B -> World -> Prop) :
  m w = (Return a, w1) -> returns (f a) w1 P -> returns (m ≫= f) w P.
Proof.
  intros E (y & w2 & E2 & HP). exists y, w2. split; [|done].
  by rewrite (bind_eq _ _ _ _ _ E).
Qed.

Lemma returns_assoc {A B C} (m : M A) (f : A -> M B) (g : B -> M C)
    (w : World) (P : C -> World -> Prop) :
  returns (m ≫= fun a => f a ≫= g) w P -> returns ((m ≫= f) ≫= g) w P.
Proof.
  intros (y & w2 & E & HP). exists y, w2. split; [|done].
  by rewrite bind_bind.
Qed.

Lemma returns_now {A} (m : M A) (w w1 : World) (a : A)
    (P : A -> World -> Prop) :
  m w = (Return a, w1) -> P a w1 -> returns m w P.
Proof. intros E HP. by exists a, w1. Qed.

Lemma returns_elim (m : M unit) (w : World) (P : unit -> World -> Prop) :
  returns m w P -> exists w2, m w = (Return tt, w2) /\ P tt w2.
Proof. intros ([] & w2 & E & HP). eauto. Qed.

(** Run the first statement of the program of a [returns] goal. *)
Ltac xstep :=
  lazymatch goal with
  | |- returns ((_ ≫= _) ≫= _) _ _ => apply returns_assoc
  | |- returns (_ ≫= _) _ _ => eapply returns_bind; [prim | cbn beta; norm]
  end.

Lemma returns_wp {A B} (m : M A) (f : A -> M B) (w : World)
    (Q : A -> World -> Prop) (P : B -> World -> Prop) :
  returns m w Q -> (forall a w1, Q a w1 -> returns (f a) w1 P) ->
  returns (m ≫= f) w P.
Proof.
  intros (a & w1 & E & HQ) HP. eapply returns_bind; [exact E|]. by apply HP.
Qed.

Lemma update_mid_wp (w : World) :
  (forall s r, side_get (best_queue (book w)) s = Some r ->
               is_Some (qheap w !! r)) ->
  (side_get (best_queue (book w)) BID <> None ->
   side_get (best_queue (book w)) ASK <> None ->
   is_Some (_curr_mid (book w))) ->
  returns _update_mid w (fun _ w' =>
    exists pm' cm',
      w' = set_book (set_curr_mid cm' (set_prev_mid pm' (book w))) w).
Proof.
  destruct w as [[ma mb bq bv qs om pm cm ins sp] qh oh sn c nu nq].
  intros H1 H2.
  destruct (update_mid_returns ma mb bq bv qs om pm cm ins sp qh oh sn c nu nq
              H1 H2) as (pm' & cm' & E).
  exists tt. eexists. split; [exact E|]. by exists pm', cm'.
Qed.

(** The scan of [_find_prev_queue] reads the index and the instrument and
    nothing else, and writes nothing. *)
Lemma find_prev_transfer (fuel : nat) (limit : Z) (s : Side) (w w0 w' : World)
    (r : qref) :
  queues (book w) = queues (book w0) ->
  _instrument (book w) = _instrument (book w0) ->
  _find_prev_queue fuel limit s w = (Return r, w') ->
  w' = w /\ _find_prev_queue fuel limit s w0 = (Return r, w0).
Proof.
  intros Hq Hi. unfold _find_prev_queue. revert limit.
  induction fuel as [|fuel IH]; intros limit; [discriminate|].
  rewrite !find_loop_unfold. unfold tick_of. rewrite <- Hq, <- Hi.
  destruct (queues (book w) !! _) as [q|].
  - intros [= -> <-]. done.
  - apply IH.
Qed.

(** The objects that were in a heap are back after the round trip: every
    insert is at the fresh key [Hfr] speaks of or restores the object. *)
Ltac heap_frame Hfr :=
  let r' := fresh "r'" in
  let x := fresh "x" in
  let Hr := fresh "Hr" in
  intros r' x Hr;
  repeat (lazymatch goal with
          | |- <[?k := _]> _ !! r' = _ =>
              first
                [ rewrite lookup_insert_ne by congruence
                | destruct (decide (r' = k)) as [->|];
                  [ rewrite lookup_insert_eq;
                    first [ clash Hfr Hr
                          | rewrite <- Hr; symmetry; eassumption ]
                  | rewrite lookup_insert_ne by congruence ] ]
          end);
  try done.

Section roundtrip_new.
Variables (ma : Z) (mb : xfloat) (bq : per_side (option qref)).
Variables (bv : per_side Z) (qs : gmap Z qref) (om : gmap nat oref).
Variables (pm cm : option Z) (ins : Instrument).
Variables (qh : gmap qref Queue.t) (oh : gmap oref Order.t).
Variables (sn : list (ident * message)) (c nu nq : nat).
Variables (fuel : nat) (quantity price : Z) (client_id : string).

Let W := mkWorld (mkBook ma mb bq bv qs om pm cm ins true) qh oh sn c nu nq.

Hypothesis Hom : om !! nu = None.
Hypothesis Hfresh : oh !! nu = None.
Hypothesis Hqfresh : qh !! nq = None.
Hypothesis Hq1 : adjust_quantity ins quantity = quantity.
Hypothesis Hq2 : py_round quantity 2 = quantity.
Hypothesis Hqs : qs !! price = None.
Hypothesis Hbest_heap :
  forall s r, side_get bq s = Some r -> is_Some (qh !! r).

Let o0 side := Order.mk client_id ins side quantity price None None None
                         c c nu quantity 0.

(** With the new queue in place, [on_limit] ends by adding the order to
    it, and [on_cancel] comes down to deleting the queue again. *)
Lemma roundtrip_tail (side : Side) (ma' : Z) (mb' : xfloat) (bq' : per_side (option qref))
    (qs' : gmap Z qref) (pm' cm' : option Z) (QH : gmap qref Queue.t)
    (qp qn : option qref) (w1 : World) :
  adjust_quantity ins (side_get bv side) = side_get bv side ->
  QH !! nq = Some (Queue.mk price side true 2 qp qn None None 0 0) ->
  (Queue_add nq nu
   ≫= fun _ => getO nu
   ≫= fun o => add_best_volume (Order.side o) (Order.quantity o))
    (mkWorld (mkBook ma' mb' bq' bv qs' (<[nu:=nu]> om) pm' cm' ins true)
             QH (<[nu := o0 side]> oh) sn (S c) (S nu) (S nq))
  = (Return tt, w1) ->
  order_map (book w1) !! nu = Some nu
  /\ exists sn1 msg,
       on_cancel nu w1
       = (_delete_queue side nq
          ≫= fun _ => getO nu
          ≫= fun o => del_order_map (Order.order_id o)
          ≫= fun _ => call_send_private (Client client_id) msg)
           (mkWorld
              (mkBook ma' mb' bq' bv qs' (<[nu:=nu]> om) pm' cm' ins true)
              QH
              (<[nu := Order.mk client_id ins side quantity price None None
                                (Some nq) (S c) c nu quantity 0]> oh)
              sn1 (S (S c)) (S nu) (S nq)).
Proof.
  intros Hbv HQ H.
  edestruct (Queue_add_first
               (mkBook ma' mb' bq' bv qs' (<[nu:=nu]> om) pm' cm' ins true)
               QH (<[nu := o0 side]> oh) sn (S c) (S nu) (S nq) nq nu)
    as [sn1 E1]; [exact HQ|lk|done|].
  rewrite (bind_eq _ _ _ _ _ E1) in H. clear E1.
  unfold add_best_volume in H. repeat hstep H.
  injection H as <-. norm. split; [lk|].
  exists sn1. eexists.
  unfold on_cancel, _get_order. repeat mstep.
  rewrite lookup_insert_eq. repeat mstep.
  eapply bind_step.
  { apply Queue_remove_sole; [lk|lk|done|done]. }
  cbn beta. norm. unfold add_best_volume.
  repeat mstep. rewrite removed_volume_fresh, side_get_set.
  rewrite py_round_add_sub by (done || apply py_round_zero).
  unfold Queue.empty. norm. repeat mstep.
  rewrite best_volume_back by done.
  rewrite !insert_insert_eq. rewrite (insert_id QH) by done.
  reflexivity.
Qed.

(** The order opens the first queue of its side and closes it again. *)
Lemma roundtrip_first (side : Side) (w1 : World) :
  adjust_quantity ins (side_get bv side) = side_get bv side ->
  side_get bq side = None ->
  match side with BID => mb = Inf | ASK => ma = 0 end ->
  (Order_new ins client_id side quantity price ≫= _insert_order fuel) W
  = (Return tt, w1) ->
  order_map (book w1) !! nu = Some nu
  /\ exists w2, on_cancel nu w1 = (Return tt, w2) /\ same_book W w2.
Proof.
  intros Hbv Hnone Hext H. unfold W in *.
  rewrite (bind_eq _ _ _ _ _ (Order_new_eq _ _ _ _ _ _ _ _ _ _ _ _)) in H.
  unfold _insert_order in H. repeat hstep H. rewrite Hqs in H.
  unfold _create_queue, Queue_new, get_best, set_best in H.
  destruct side; simpl in Hnone, H; repeat hstep H.
  - (* bid *)
    rewrite Hnone in H. repeat hstep H.
    apply bind_inv in H as ([] & wx & E & H).
    apply update_mid_inv in E as (pm' & cm' & -> & _).
    repeat hstep H.
    eapply roundtrip_tail in H as (Hom1 & sn1 & msg & Ec);
      [|done|apply lookup_insert_eq].
    split; [done|]. rewrite Ec. clear Ec.
    apply (returns_elim _ _ (fun _ w2 => same_book _ w2)).
    unfold _delete_queue, get_best, Queue_eq, set_best.
    repeat xstep. rewrite Z.eqb_refl. repeat xstep.
    eapply returns_wp.
    { apply update_mid_wp; simpl.
      - intros s r Hs. destruct s; [done|].
        destruct (Hbest_heap ASK r Hs) as [x Hx].
        exists x. rewrite lookup_insert_ne; [done|].
        intros <-. clash Hqfresh Hx.
      - done. }
    intros [] wx (pm2 & cm2 & ->). norm.
    unfold del_queues, del_order_map, call_send_private.
    repeat xstep.
    rewrite Hext. simpl xmin. rewrite bool_decide_eq_true_2 by done.
    repeat xstep. rewrite lookup_insert_eq. repeat xstep.
    rewrite lookup_insert_eq. repeat xstep.
    eapply returns_now; [reflexivity|].
    unfold same_book. simpl.
    split; [done|]. split; [by destruct bq; simpl in *; subst|].
    split; [by rewrite delete_insert_id|].
    split; [by rewrite delete_insert_id|].
    do 2 (split; [done|]). split.
    + intros r q Hr. rewrite lookup_insert_ne; [done|].
      intros <-. clash Hqfresh Hr.
    + intros r o Hr. rewrite lookup_insert_ne; [done|].
      intros <-. clash Hfresh Hr.
  - (* ask *)
    rewrite Hnone in H. repeat hstep H.
    apply bind_inv in H as ([] & wx & E & H).
    apply update_mid_inv in E as (pm' & cm' & -> & _).
    repeat hstep H.
    eapply roundtrip_tail in H as (Hom1 & sn1 & msg & Ec);
      [|done|apply lookup_insert_eq].
    split; [done|]. rewrite Ec. clear Ec.
    apply (returns_elim _ _ (fun _ w2 => same_book _ w2)).
    unfold _delete_queue, get_best, Queue_eq, set_best.
    repeat xstep. rewrite Z.eqb_refl. repeat xstep.
    eapply returns_wp.
    { apply update_mid_wp; simpl.
      - intros s r Hs. destruct s; [|done].
        destruct (Hbest_heap BID r Hs) as [x Hx].
        exists x. rewrite lookup_insert_ne; [done|].
        intros <-. clash Hqfresh Hx.
      - done. }
    intros [] wx (pm2 & cm2 & ->). norm.
    unfold del_queues, del_order_map, call_send_private.
    repeat xstep.
    rewrite Hext.
    destruct (Z.eqb_spec price (Z.max price 0)) as [Hmax|Hmax];
      repeat xstep; rewrite lookup_insert_eq; repeat xstep;
      rewrite lookup_insert_eq; repeat xstep;
      (eapply returns_now; [reflexivity|]);
      unfold same_book; simpl;
      (split; [done|]); (split; [by destruct bq; simpl in *; subst|]);
      (split; [by rewrite delete_insert_id|]);
      (split; [by rewrite delete_insert_id|]);
      (split; [done|]); (split; [lia|]); split.
    all: intros r q Hr; (rewrite lookup_insert_ne; [done|]); intros <-.
    all: first [clash Hqfresh Hr | clash Hfresh Hr].
Qed.

(** The order opens a new best queue and closes it again. *)
Lemma roundtrip_best (side : Side) (b0 : qref) (qb0 : Queue.t) (w1 : World) :
  adjust_quantity ins (side_get bv side) = side_get bv side ->
  side_get bq side = Some b0 -> qh !! b0 = Some qb0 ->
  Queue.qprev qb0 = None ->
  smul side (Queue.limit qb0) < smul side price ->
  match side with
  | BID => exists m, mb = Fin m /\ m < price
  | ASK => price < ma
  end ->
  (Order_new ins client_id side quantity price ≫= _insert_order fuel) W
  = (Return tt, w1) ->
  order_map (book w1) !! nu = Some nu
  /\ exists w2, on_cancel nu w1 = (Return tt, w2) /\ same_book W w2.
Proof.
  intros Hbv Hbest Hb0 Hprev Hlt Hext H. unfold W in *.
  assert (b0 <> nq) as Hne by (intros E; rewrite E in Hb0; clash Hqfresh Hb0).
  rewrite (bind_eq _ _ _ _ _ (Order_new_eq _ _ _ _ _ _ _ _ _ _ _ _)) in H.
  unfold _insert_order in H. repeat hstep H. rewrite Hqs in H.
  unfold _create_queue, Queue_new, get_best, set_best in H.
  apply Z.ltb_lt in Hlt.
  destruct side; simpl in Hbest, H; repeat hstep H.
  - (* bid *)
    rewrite Hbest in H. repeat hstep H. rewrite Hlt in H. repeat hstep H.
    apply bind_inv in H as ([] & wx & E & H).
    apply update_mid_inv in E as (pm' & cm' & -> & Hcm).
    repeat hstep H.
    eapply roundtrip_tail in H as (Hom1 & sn1 & msg & Ec); [|done|lk].
    split; [done|]. rewrite Ec. clear Ec.
    apply (returns_elim _ _ (fun _ w2 => same_book _ w2)).
    unfold _delete_queue, get_best, Queue_eq, set_best.
    repeat xstep. rewrite Z.eqb_refl. repeat xstep.
    eapply returns_wp.
    { apply update_mid_wp; simpl.
      - intros s r Hs. rewrite !lookup_insert_is_Some'.
        destruct s; simpl in Hs.
        + injection Hs as <-. repeat (first [by left | right]).
        + repeat right. by apply (Hbest_heap ASK).
      - intros _ _. apply Hcm. by left. }
    intros [] wx (pm2 & cm2 & ->). norm.
    unfold del_queues, del_order_map, call_send_private.
    repeat xstep.
    destruct Hext as (m & -> & Hm). unfold xmin.
    rewrite (proj2 (Z.ltb_lt _ _) Hm).
    rewrite bool_decide_eq_false_2 by (intros [= ->]; lia).
    repeat xstep. rewrite lookup_insert_eq. repeat xstep.
    rewrite lookup_insert_eq. repeat xstep.
    eapply returns_now; [reflexivity|].
    unfold same_book. simpl.
    split; [done|]. split; [by destruct bq; simpl in *; subst|].
    split; [by rewrite delete_insert_id|].
    split; [by rewrite delete_insert_id|].
    do 2 (split; [done|]). split.
    + intros r q Hr. destruct (decide (r = b0)) as [->|].
      * rewrite lookup_insert_eq.
        assert (q = qb0) by congruence. subst q.
        destruct qb0. simpl in *. by subst.
      * repeat (rewrite lookup_insert_ne;
                  [|first [congruence | intros <-; clash Hqfresh Hr]]).
        done.
    + intros r o Hr. rewrite lookup_insert_ne; [done|].
      intros <-. clash Hfresh Hr.
  - (* ask *)
    rewrite Hbest in H. repeat hstep H. rewrite Hlt in H. repeat hstep H.
    apply bind_inv in H as ([] & wx & E & H).
    apply update_mid_inv in E as (pm' & cm' & -> & Hcm).
    repeat hstep H.
    eapply roundtrip_tail in H as (Hom1 & sn1 & msg & Ec); [|done|lk].
    split; [done|]. rewrite Ec. clear Ec.
    apply (returns_elim _ _ (fun _ w2 => same_book _ w2)).
    unfold _delete_queue, get_best, Queue_eq, set_best.
    repeat xstep. rewrite Z.eqb_refl. repeat xstep.
    eapply returns_wp.
    { apply update_mid_wp; simpl.
      - intros s r Hs. rewrite !lookup_insert_is_Some'.
        destruct s; simpl in Hs.
        + repeat right. by apply (Hbest_heap BID).
        + injection Hs as <-. repeat (first [by left | right]).
      - intros _ _. apply Hcm. by right. }
    intros [] wx (pm2 & cm2 & ->). norm.
    unfold del_queues, del_order_map, call_send_private.
    repeat xstep.
    rewrite (Z.max_r price ma) by lia.
    rewrite (proj2 (Z.eqb_neq price ma)) by lia.
    repeat xstep. rewrite lookup_insert_eq. repeat xstep.
    rewrite lookup_insert_eq. repeat xstep.
    eapply returns_now; [reflexivity|].
    unfold same_book. simpl.
    split; [done|]. split; [by destruct bq; simpl in *; subst|].
    split; [by rewrite delete_insert_id|].
    split; [by rewrite delete_insert_id|].
    do 2 (split; [done|]). split.
    + intros r q Hr. destruct (decide (r = b0)) as [->|].
      * rewrite lookup_insert_eq.
        assert (q = qb0) by congruence. subst q.
        destruct qb0. simpl in *. by subst.
      * repeat (rewrite lookup_insert_ne;
                  [|first [congruence | intros <-; clash Hqfresh Hr]]).
        done.
    + intros r o Hr. rewrite lookup_insert_ne; [done|].
      intros <-. clash Hfresh Hr.
Qed.


(** The end of a round trip: the last statement returns and the book
    is back. *)
Ltac same_book_back :=
  eapply returns_now; [reflexivity|];
  unfold same_book; simpl;
  do 2 (split; [done|]);
  (split; [by rewrite delete_insert_id|]);
  (split; [by rewrite delete_insert_id|]);
  do 2 (split; [first [done | lia]|]);
  split; [heap_frame Hqfresh | heap_frame Hfresh].

(** The order opens a queue inside the ladder, behind the queue [r], and
    closes it again. *)
Lemma roundtrip_inside (side : Side) (b0 r : qref) (qb0 qp : Queue.t)
    (w1 : World) :
  adjust_quantity ins (side_get bv side) = side_get bv side ->
  side_get bq side = Some b0 -> qh !! b0 = Some qb0 ->
  smul side price <= smul side (Queue.limit qb0) ->
  Queue.limit qb0 <> price ->
  (forall r' w', _find_prev_queue fuel price side W = (Return r', w') ->
                 r' = r) ->
  qh !! r = Some qp ->
  Queue.qprev qb0 = None ->
  match Queue.qnext qp with
  | Some nx =>
      nx <> r
      /\ (exists qn, qh !! nx = Some qn /\ Queue.qprev qn = Some r)
      /\ match side with
         | BID => exists m, mb = Fin m /\ m < price
         | ASK => price < ma
         end
  | None =>
      match side with
      | BID => mb = Fin (Queue.limit qp) /\ price < Queue.limit qp
      | ASK => ma = Queue.limit qp /\ Queue.limit qp < price
      end
  end ->
  (Order_new ins client_id side quantity price ≫= _insert_order fuel) W
  = (Return tt, w1) ->
  order_map (book w1) !! nu = Some nu
  /\ exists w2, on_cancel nu w1 = (Return tt, w2) /\ same_book W w2.
Proof.
  intros Hbv Hbest Hb0 Hle Hlim Hfind Hr Hprev0 Hnext H. unfold W in *.
  assert (b0 <> nq) as Hne by (intros E; rewrite E in Hb0; clash Hqfresh Hb0).
  assert (r <> nq) as Hrne by (intros E; rewrite E in Hr; clash Hqfresh Hr).
  rewrite (bind_eq _ _ _ _ _ (Order_new_eq _ _ _ _ _ _ _ _ _ _ _ _)) in H.
  unfold _insert_order in H. repeat hstep H. rewrite Hqs in H.
  unfold _create_queue, Queue_new, get_best, set_best in H.
  apply Z.ltb_ge in Hle.
  destruct side; simpl in Hbest, H; repeat hstep H.
  - (* bid *)
    rewrite Hbest in H. repeat hstep H. rewrite Hle in H.
    rewrite !bind_bind in H.
    apply bind_inv in H as (r' & wx & E & H).
    eapply (find_prev_transfer _ _ _ _
              (mkWorld (mkBook ma mb bq bv qs om pm cm ins true)
                       qh oh sn c nu nq)) in E as [-> E];
      [|reflexivity..].
    apply Hfind in E. subst r'.
    repeat hstep H. rewrite !insert_insert_eq in H.
    destruct (Queue.qnext qp) as [nx|] eqn:Enx.
    + destruct Hnext as (Hnr & (qn & Hqn & Hqnp) & (m & -> & Hm)).
      assert (nx <> nq) as Hnn
        by (intros E'; rewrite E' in Hqn; clash Hqfresh Hqn).
      assert (nx <> b0) as Hnb.
      { intros E'. rewrite E' in Hqn.
        assert (qn = qb0) by congruence. subst qn. congruence. }
      repeat hstep H.
      eapply roundtrip_tail in H as (Hom1 & sn1 & msg & Ec); [|done|lk].
      split; [done|]. rewrite Ec. clear Ec.
      apply (returns_elim _ _ (fun _ w2 => same_book _ w2)).
      unfold _delete_queue, get_best, Queue_eq, set_best.
      destruct (decide (b0 = r)) as [Ebr|Hbr].
      * subst b0. assert (qb0 = qp) by congruence. subst qb0.
        repeat xstep. rewrite Hbest. repeat xstep.
        rewrite (proj2 (Z.eqb_neq price (Queue.limit qp))) by congruence.
        repeat xstep.
        unfold xmin. rewrite (proj2 (Z.ltb_lt _ _) Hm).
        rewrite bool_decide_eq_false_2 by (intros [= ->]; lia).
        unfold del_queues, del_order_map, call_send_private.
        repeat xstep. rewrite lookup_insert_eq. repeat xstep.
        rewrite lookup_insert_eq. repeat xstep.
        destruct qp, qn; simpl in *; subst. same_book_back.
      * repeat xstep. rewrite Hbest. repeat xstep.
        rewrite (proj2 (Z.eqb_neq price (Queue.limit qb0))) by congruence.
        repeat xstep.
        unfold xmin. rewrite (proj2 (Z.ltb_lt _ _) Hm).
        rewrite bool_decide_eq_false_2 by (intros [= ->]; lia).
        unfold del_queues, del_order_map, call_send_private.
        repeat xstep. rewrite lookup_insert_eq. repeat xstep.
        rewrite lookup_insert_eq. repeat xstep.
        destruct qp, qn; simpl in *; subst. same_book_back.
    + destruct Hnext as [-> Hlt].
      repeat hstep H.
      eapply roundtrip_tail in H as (Hom1 & sn1 & msg & Ec); [|done|lk].
      split; [done|]. rewrite Ec. clear Ec.
      apply (returns_elim _ _ (fun _ w2 => same_book _ w2)).
      unfold _delete_queue, get_best, Queue_eq, set_best.
      destruct (decide (b0 = r)) as [Ebr|Hbr].
      * subst b0. assert (qb0 = qp) by congruence. subst qb0.
        repeat xstep. rewrite Hbest. repeat xstep.
        rewrite (proj2 (Z.eqb_neq price (Queue.limit qp))) by congruence.
        repeat xstep.
        unfold xmin. rewrite (proj2 (Z.ltb_ge _ _)) by lia.
        rewrite bool_decide_eq_true_2 by done.
        unfold del_queues, del_order_map, call_send_private.
        repeat xstep. rewrite lookup_insert_eq. repeat xstep.
        rewrite lookup_insert_eq. repeat xstep.
        destruct qp; simpl in *; subst. same_book_back.
      * repeat xstep. rewrite Hbest. repeat xstep.
        rewrite (proj2 (Z.eqb_neq price (Queue.limit qb0))) by congruence.
        repeat xstep.
        unfold xmin. rewrite (proj2 (Z.ltb_ge _ _)) by lia.
        rewrite bool_decide_eq_true_2 by done.
        unfold del_queues, del_order_map, call_send_private.
        repeat xstep. rewrite lookup_insert_eq. repeat xstep.
        rewrite lookup_insert_eq. repeat xstep.
        destruct qp; simpl in *; subst. same_book_back.
  - (* ask *)
    rewrite Hbest in H. repeat hstep H. rewrite Hle in H.
    rewrite !bind_bind in H.
    apply bind_inv in H as (r' & wx & E & H).
    eapply (find_prev_transfer _ _ _ _
              (mkWorld (mkBook ma mb bq bv qs om pm cm ins true)
                       qh oh sn c nu nq)) in E as [-> E];
      [|reflexivity..].
    apply Hfind in E. subst r'.
    repeat hstep H. rewrite !insert_insert_eq in H.
    destruct (Queue.qnext qp) as [nx|] eqn:Enx.
    + destruct Hnext as (Hnr & (qn & Hqn & Hqnp) & Hm).
      assert (nx <> nq) as Hnn
        by (intros E'; rewrite E' in Hqn; clash Hqfresh Hqn).
      assert (nx <> b0) as Hnb.
      { intros E'. rewrite E' in Hqn.
        assert (qn = qb0) by congruence. subst qn. congruence. }
      repeat hstep H.
      eapply roundtrip_tail in H as (Hom1 & sn1 & msg & Ec); [|done|lk].
      split; [done|]. rewrite Ec. clear Ec.
      apply (returns_elim _ _ (fun _ w2 => same_book _ w2)).
      unfold _delete_queue, get_best, Queue_eq, set_best.
      destruct (decide (b0 = r)) as [Ebr|Hbr].
      * subst b0. assert (qb0 = qp) by congruence. subst qb0.
        repeat xstep. rewrite Hbest. repeat xstep.
        rewrite (proj2 (Z.eqb_neq price (Queue.limit qp))) by congruence.
        repeat xstep.
        rewrite (Z.max_r price ma) by lia.
        rewrite (proj2 (Z.eqb_neq price ma)) by lia.
        unfold del_queues, del_order_map, call_send_private.
        repeat xstep. rewrite lookup_insert_eq. repeat xstep.
        rewrite lookup_insert_eq. repeat xstep.
        destruct qp, qn; simpl in *; subst. same_book_back.
      * repeat xstep. rewrite Hbest. repeat xstep.
        rewrite (proj2 (Z.eqb_neq price (Queue.limit qb0))) by congruence.
        repeat xstep.
        rewrite (Z.max_r price ma) by lia.
        rewrite (proj2 (Z.eqb_neq price ma)) by lia.
        unfold del_queues, del_order_map, call_send_private.
        repeat xstep. rewrite lookup_insert_eq. repeat xstep.
        rewrite lookup_insert_eq. repeat xstep.
        destruct qp, qn; simpl in *; subst. same_book_back.
    + destruct Hnext as [-> Hlt].
      repeat hstep H.
      eapply roundtrip_tail in H as (Hom1 & sn1 & msg & Ec); [|done|lk].
      split; [done|]. rewrite Ec. clear Ec.
      apply (returns_elim _ _ (fun _ w2 => same_book _ w2)).
      unfold _delete_queue, get_best, Queue_eq, set_best.
      destruct (decide (b0 = r)) as [Ebr|Hbr].
      * subst b0. assert (qb0 = qp) by congruence. subst qb0.
        repeat xstep. rewrite Hbest. repeat xstep.
        rewrite (proj2 (Z.eqb_neq price (Queue.limit qp))) by congruence.
        repeat xstep.
        rewrite (Z.max_l price (Queue.limit qp)) by lia.
        rewrite Z.eqb_refl.
        unfold del_queues, del_order_map, call_send_private.
        repeat xstep. rewrite lookup_insert_eq. repeat xstep.
        rewrite lookup_insert_eq. repeat xstep.
        destruct qp; simpl in *; subst. same_book_back.
      * repeat xstep. rewrite Hbest. repeat xstep.
        rewrite (proj2 (Z.eqb_neq price (Queue.limit qb0))) by congruence.
        repeat xstep.
        rewrite (Z.max_l price (Queue.limit qp)) by lia.
        rewrite Z.eqb_refl.
        unfold del_queues, del_order_map, call_send_private.
        repeat xstep. rewrite lookup_insert_eq. repeat xstep.
        rewrite lookup_insert_eq. repeat xstep.
        destruct qp; simpl in *; subst. same_book_back.
Qed.
End roundtrip_new.


(** ** The ladder around a new price *)

Section ladder_around.
Variable w : World.
Hypothesis Hinv : ladder_inv w.

Lemma smul_inj s x y : smul s x = smul s y -> x = y.
Proof. unfold smul. destruct s; simpl; lia. Qed.

(** A ladder with a queue has a last queue, whose limit is [last_limit]. *)
Lemma ladder_last_limit s r :
r ∈ ladder w s ->
exists rl ql,
  rl ∈ ladder w s /\ qheap w !! rl = Some ql
  /\ last (ladder w s) = Some rl
  /\ last_limit w s = Some (Queue.limit ql).
Proof.
intros Hr. destruct (last (ladder w s)) as [rl|] eqn:El.
- assert (rl ∈ ladder w s) as Hrl.
  { apply last_Some in El as [l' E]. rewrite E.
    apply elem_of_app. right. by apply list_elem_of_singleton. }
  destruct (inv_elem w Hinv s rl Hrl) as (ql & Hql & _).
  exists rl, ql. repeat split; try done.
  unfold last_limit. rewrite El. simpl. by rewrite Hql.
- apply last_None in El. rewrite El in Hr. by apply elem_of_nil in Hr.
Qed.

(** No queue of the ladder is beyond the last one. *)
Lemma last_limit_bound s r q m :
r ∈ ladder w s -> qheap w !! r = Some q -> last_limit w s = Some m ->
smul s m <= smul s (Queue.limit q).
Proof.
intros Hr Hq Hm.
destruct (ladder_last_limit s r Hr) as (rl & ql & Hrl & Hql & El & Em).
assert (m = Queue.limit ql) by congruence. subst m.
exact (ladder_ok_last w s _ _ _ _ _ _ _ (inv_ladder w Hinv s) El Hr Hql Hq).
Qed.

(** A queue of the ladder without [qnext] is the last one. *)
Lemma ladder_end_is_last s r q :
r ∈ ladder w s -> qheap w !! r = Some q -> Queue.qnext q = None ->
last_limit w s = Some (Queue.limit q).
Proof.
intros Hr Hq Hn.
destruct (ladder_last_limit s r Hr) as (rl & ql & Hrl & Hql & El & Em).
rewrite Em. f_equal.
pose proof (ladder_ok_last w s _ _ _ _ _ _ _ (inv_ladder w Hinv s)
              El Hr Hql Hq) as Hle.
destruct (Z_lt_le_dec (smul s (Queue.limit ql)) (smul s (Queue.limit q)))
  as [Hlt|Hge].
- destruct (ladder_ok_dense w s _ _ _ _ _ _ _ (inv_ladder w Hinv s)
              Hr Hrl Hq Hql Hlt) as (n & nq & En & _).
  congruence.
- apply (smul_inj s). lia.
Qed.

(** The first queue met by the scan of [_find_prev_queue] from a free price
  that is not better than the best: it is on the ladder of the side, has
  a better price, and its [qnext], if any, has a worse price and points
  back to it. *)
Lemma scan_hits_pred (s : Side) (limit : Z) (rb : qref) (qb : Queue.t) :
side_get (best_queue (book w)) s = Some rb -> qheap w !! rb = Some qb ->
smul s limit <= smul s (Queue.limit qb) ->
queues (book w) !! limit = None ->
Z.divide (tick_of w) limit ->
exists (n : nat) (r : qref) (q : Queue.t),
  (1 <= n)%nat
  /\ queues (book w) !! (limit + Z.of_nat n * smul s (tick_of w)) = Some r
  /\ (forall j, (1 <= j < n)%nat ->
        queues (book w) !! (limit + Z.of_nat j * smul s (tick_of w)) = None)
  /\ qheap w !! r = Some q /\ r ∈ ladder w s
  /\ smul s limit < smul s (Queue.limit q)
  /\ match Queue.qnext q with
     | Some nx =>
         nx ∈ ladder w s
         /\ exists qn, qheap w !! nx = Some qn
              /\ smul s (Queue.limit qn) < smul s limit
              /\ Queue.qprev qn = Some r
     | None => True
     end.
Proof.
intros Hbest Hqb Hle Hnone Hdiv.
pose proof (inv_tick_pos w Hinv) as Htick.
destruct (inv_best w Hinv s rb Hbest) as (Hrb & qb' & Hqb' & _ & Hmax).
assert (qb' = qb) by congruence. subst qb'.
destruct (inv_elem w Hinv s rb Hrb) as (qb' & Hqb'' & Hsb & Hib & _).
assert (qb' = qb) by congruence. subst qb'.
pose proof (inv_grid w Hinv _ _ Hib) as Hgb.
assert (Queue.limit qb <> limit) as Hne by (intros E; congruence).
set (st := smul s (tick_of w)).
assert (exists d, (1 <= d)%nat /\ Queue.limit qb = limit + Z.of_nat d * st)
  as (d & Hd & Ed).
{ destruct s; unfold st, smul, value in *.
  - destruct (grid_distance (tick_of w) limit (Queue.limit qb))
      as (d & Hd & Ed); [done|done|done|lia|].
    exists d. split; [done|lia].
  - destruct (grid_distance (tick_of w) (Queue.limit qb) limit)
      as (d & Hd & Ed); [done|done|done|lia|].
    exists d. split; [done|lia]. }
destruct (least_hit
            (fun j => is_Some (queues (book w) !! (limit + Z.of_nat j * st)))
            d Hd) as (n & Hn & [r Hr] & Hleast).
{ rewrite <- Ed. eauto. }
assert (forall j, (1 <= j < n)%nat ->
          queues (book w) !! (limit + Z.of_nat j * st) = None) as Hmiss.
{ intros j Hj. apply eq_None_not_Some. by apply Hleast. }
destruct (inv_index w Hinv _ _ Hr) as (q & Hq & Elim & Hlad).
assert (smul s limit < smul s (Queue.limit q)
        /\ smul s (Queue.limit q) <= smul s (Queue.limit qb)) as [Hlo Hhi].
{ rewrite Elim, Ed. destruct s; unfold st, smul, value in *; nia. }
assert (Queue.side q = s) as Hside.
{ destruct (decide (Queue.side q = s)) as [|Hns]; [done|exfalso].
  destruct s, (Queue.side q) eqn:Es; try done.
  - pose proof (inv_uncrossed w Hinv _ _ _ _ Hrb Hlad Hqb Hq).
    unfold smul, value in *. lia.
  - pose proof (inv_uncrossed w Hinv _ _ _ _ Hlad Hrb Hq Hqb).
    unfold smul, value in *. lia. }
rewrite Hside in Hlad.
exists n, r, q. split; [lia|]. do 5 (split; [done|]).
destruct (inv_elem w Hinv s r Hlad) as (q' & Hq' & _ & _ & Hnext).
assert (q' = q) by congruence. subst q'.
destruct (Queue.qnext q) as [nx|]; [|done].
destruct Hnext as (Hnx & nq & Hnq & Hlt & Hback).
split; [done|]. exists nq. split; [done|]. split; [|done].
destruct (inv_elem w Hinv s nx Hnx) as (nq' & Hnq' & _ & Hinx & _).
assert (nq' = nq) by congruence. subst nq'.
destruct (Z_lt_le_dec (smul s (Queue.limit nq)) (smul s limit))
  as [|Hge]; [done|exfalso].
assert (Queue.limit nq <> limit) by (intros E; congruence).
pose proof (inv_grid w Hinv _ _ Hinx) as Hgn.
assert (exists j, (1 <= j < n)%nat
                  /\ Queue.limit nq = limit + Z.of_nat j * st)
  as (j & Hj & Ej).
{ rewrite Elim in Hlt.
  destruct s; unfold st, smul, value in *.
  - destruct (grid_distance (tick_of w) limit (Queue.limit nq))
      as (j & Hj & Ej); [done|done|done|lia|].
    exists j. split; [|lia].
    assert (Z.of_nat j < Z.of_nat n) by nia. lia.
  - destruct (grid_distance (tick_of w) (Queue.limit nq) limit)
      as (j & Hj & Ej); [done|done|done|lia|].
    exists j. split; [|lia].
    assert (Z.of_nat j < Z.of_nat n) by nia. lia. }
rewrite Ej, (Hmiss j Hj) in Hinx. done.
Qed.

(** Whatever the fuel, a scan that returns has returned that first queue. *)
Lemma scan_returns_first (s : Side) (limit : Z) (n fuel : nat) (r r' : qref)
  (w' : World) :
Z.divide (tick_of w) limit ->
queues (book w) !! (limit + Z.of_nat n * smul s (tick_of w)) = Some r ->
(forall j, (1 <= j < n)%nat ->
   queues (book w) !! (limit + Z.of_nat j * smul s (tick_of w)) = None) ->
(1 <= n)%nat ->
_find_prev_queue fuel limit s w = (Return r', w') -> r' = r.
Proof.
intros Hdiv Hhit Hmiss Hn E.
destruct (find_loop_returns w Hinv s fuel limit r' w' Hdiv E)
  as (_ & n' & Hn' & Hmiss' & Hhit').
destruct (Nat.lt_trichotomy n n') as [Hlt|[->|Hgt]].
- rewrite (Hmiss' n) in Hhit by lia. done.
- congruence.
- rewrite (Hmiss n') in Hhit' by lia. done.
Qed.

End ladder_around.

(** ** The round trip *)

(** X14: on a book that satisfies the invariants, with a callback and a
    mid known, whose numbers are within the range where floats carry the
    decimals, a limit order that does not cross, at a price of the tick
    grid and for a quantity that the roundings of the engine leave alone
    (both within that range), is undone by its cancellation: if [on_limit]
    returns, the order is in [order_map] under the new id, and [on_cancel]
    of that id returns and gives back the volumes, best queues, index,
    order map and extreme prices, and every queue and order object as it
    was (the two mids may differ). *)
Theorem limit_then_cancel_restores (fuel : nat) (side : Side)
    (quantity price : Z) (client_id : string) (w w1 : World) :
  book_inv w -> send_private (book w) = true ->
  float_safe_book w -> mid_known w ->
  exact_quantity w quantity -> float_safe quantity ->
  is_divisible price (tick_of w) = true -> float_safe price ->
  not_crossing w side price ->
  on_limit fuel side quantity price client_id w = (Return tt, w1) ->
  order_map (book w1) !! next_uuid w = Some (next_uuid w)
  /\ exists w2,
       on_cancel (next_uuid w) w1 = (Return tt, w2) /\ same_book w w2.
Proof.
  intros Hinv Hsp _ _ Hq _ Hdiv _ Hnc H.
  destruct (queues (book w) !! price) as [r0|] eqn:Hqs.
  { eapply limit_then_cancel_existing_level; eauto. }
  destruct Hinv as (Hlad & [Hmb Hma] & Hlive & Hheap & Hvol).
  destruct Hq as [Hq1 Hq2].
  rewrite on_limit_not_crossing in H by done.
  destruct (heap_ok_fresh w Hheap) as (Hom & Hfresh & Hqfresh).
  apply is_divisible_true in Hdiv as [_ Hdiv].
  assert (forall s r, side_get (best_queue (book w)) s = Some r ->
                      is_Some (qheap w !! r)) as Hbh.
  { intros s r Hs. destruct (inv_best w Hlad s r Hs) as (_ & q & Hq & _).
    eauto. }
  assert (adjust_quantity (_instrument (book w))
            (side_get (best_volumes (book w)) side)
          = side_get (best_volumes (book w)) side) as Hbv
    by (destruct side; apply Hvol).
  destruct (side_get (best_queue (book w)) side) as [b0|] eqn:Hbest.
  - destruct (inv_best w Hlad side b0 Hbest)
      as (Hb0l & qb0 & Hqb0 & Hprev0 & Hmax).
    destruct (ladder_last_limit w Hlad side b0 Hb0l)
      as (rl & ql & Hrl & Hql & El & Em).
    destruct (Z_lt_le_dec (smul side (Queue.limit qb0)) (smul side price))
      as [Hlt|Hle].
    + (* a new best queue *)
      assert (match side with
              | BID => exists m, min_bid (book w) = Fin m /\ m < price
              | ASK => price < max_ask (book w)
              end) as Hx.
      { pose proof (last_limit_bound w Hlad side b0 qb0 _ Hb0l Hqb0 Em) as Hb.
        destruct side; unfold smul, value in *.
        - rewrite Em in Hmb. eexists. split; [exact Hmb|lia].
        - rewrite Em in Hma. simpl in Hma. lia. }
      destruct w as [[ma mb bq bv qs om pm cm ins sp] qh oh sn c nu nq].
      simpl in *. subst sp.
      eapply roundtrip_best with (fuel := fuel) (side := side) (b0 := b0)
                                 (qb0 := qb0) (quantity := quantity)
                                 (price := price) (client_id := client_id);
        eauto.
    + (* a queue inside the ladder *)
      destruct (scan_hits_pred w Hlad side price b0 qb0 Hbest Hqb0 Hle Hqs Hdiv)
        as (n & r & q & Hn & Hhit & Hmiss & Hq & Hrlad & Hlo & Hnx).
      assert (Queue.limit qb0 <> price) as Hlim.
      { intros E.
        destruct (inv_elem w Hlad side b0 Hb0l) as (q' & Hq' & _ & Hi & _).
        assert (q' = qb0) by congruence. subst q'. rewrite E in Hi.
        congruence. }
      assert (forall r' w',
                _find_prev_queue fuel price side w = (Return r', w') ->
                r' = r) as Hfind.
      { intros r' w' E.
        by eapply (scan_returns_first w Hlad side price n fuel r r' w'). }
      assert (match Queue.qnext q with
              | Some nx =>
                  nx <> r
                  /\ (exists qn, qheap w !! nx = Some qn
                                 /\ Queue.qprev qn = Some r)
                  /\ match side with
                     | BID => exists m, min_bid (book w) = Fin m /\ m < price
                     | ASK => price < max_ask (book w)
                     end
              | None =>
                  match side with
                  | BID => min_bid (book w) = Fin (Queue.limit q)
                           /\ price < Queue.limit q
                  | ASK => max_ask (book w) = Queue.limit q
                           /\ Queue.limit q < price
                  end
              end) as Hnext.
      { destruct (Queue.qnext q) as [nx|] eqn:Enx.
        - destruct Hnx as (Hnxl & qn & Hqn & Hqlt & Hback).
          split.
          { intros ->. assert (qn = q) by congruence. subst qn. lia. }
          split; [eauto|].
          pose proof (last_limit_bound w Hlad side nx qn _ Hnxl Hqn Em) as Hb.
          destruct side; unfold smul, value in *.
          + rewrite Em in Hmb. eexists. split; [exact Hmb|lia].
          + rewrite Em in Hma. simpl in Hma. lia.
        - pose proof (ladder_end_is_last w Hlad side r q Hrlad Hq Enx) as Hl.
          destruct side; unfold smul, value in *.
          + rewrite Hl in Hmb. split; [done|lia].
          + rewrite Hl in Hma. simpl in Hma. split; [done|lia]. }
      destruct w as [[ma mb bq bv qs om pm cm ins sp] qh oh sn c nu nq].
      simpl in *. subst sp.
      eapply roundtrip_inside with (fuel := fuel) (side := side) (b0 := b0)
                                   (qb0 := qb0) (quantity := quantity)
                                   (price := price) (client_id := client_id)
                                   (r := r) (qp := q);
        eauto.
  - (* the first queue of the side *)
    pose proof (inv_best_none w Hlad side Hbest) as Hnil.
    assert (match side with
            | BID => min_bid (book w) = Inf
            | ASK => max_ask (book w) = 0
            end) as Hx.
    { unfold last_limit in *.
      destruct side; rewrite Hnil in *; simpl in *; done. }
    destruct w as [[ma mb bq bv qs om pm cm ins sp] qh oh sn c nu nq].
    simpl in *. subst sp.
    eapply roundtrip_first with (fuel := fuel) (side := side)
                                (quantity := quantity) (price := price)
                                (client_id := client_id);
      eauto.
Qed.

Lemma limit_then_cancel_restores_witness :
  order_map (book (on_limit 1000 BID (qt 3) (px 3050) "dave" w5).2)
    !! next_uuid w5 = Some (next_uuid w5)
  /\ exists w2,
       on_cancel (next_uuid w5)
         (on_limit 1000 BID (qt 3) (px 3050) "dave" w5).2
       = (Return tt, w2) /\ same_book w5 w2.
Proof.
  apply (limit_then_cancel_restores 1000 BID (qt 3) (px 3050) "dave" w5).
  - refine (@bool_decide_unpack _ (book_inv_dec _) _). vm_compute. exact I.
  - reflexivity.
  - refine (@bool_decide_unpack _ (float_safe_book_dec _) _).
    vm_compute. exact I.
  - intros _. vm_compute. eauto.
  - split; vm_compute; reflexivity.
  - vm_compute. discriminate.
  - vm_compute. reflexivity.
  - vm_compute. discriminate.
  - vm_compute. reflexivity.
  - vm_compute. reflexivity.
Defined.


(** ** What no operation undoes *)

Lemma extends_refl w : extends w w.
Proof. unfold extends. repeat split; done. Qed.

Lemma extends_trans w1 w2 w3 : extends w1 w2 -> extends w2 w3 -> extends w1 w3.
Proof.
  unfold extends.
  intros (? & ? & ? & ? & ? & ?) (? & ? & ? & ? & ? & ?).
  repeat split; try lia; try congruence. by etrans.
Qed.

Lemma monotone_ret {A} (a : A) : monotone (mret a).
Proof. intros w. apply extends_refl. Qed.

Lemma monotone_bind {A B} (m : M A) (k : A -> M B) :
  monotone m -> (forall a, monotone (k a)) -> monotone (m ≫= k).
Proof.
  intros Hm Hk w. unfold mbind, M_bind.
  pose proof (Hm w) as H. destruct (m w) as [[a| | |] w1]; simpl in *; try done.
  eapply extends_trans; [exact H|apply Hk].
Qed.

Lemma monotone_raise {A} e : monotone (@raise A e).
Proof. intros w. apply extends_refl. Qed.

Lemma monotone_out_of_fuel {A} : monotone (@out_of_fuel A).
Proof. intros w. apply extends_refl. Qed.

Lemma monotone_the {A} e (o : option A) : monotone (the e o).
Proof. destruct o; intros w; apply extends_refl. Qed.

Lemma monotone_getW : monotone getW.
Proof. intros w. apply extends_refl. Qed.

Lemma monotone_getB : monotone getB.
Proof. intros w. apply extends_refl. Qed.

Lemma monotone_getQ r : monotone (getQ r).
Proof. intros w. unfold getQ. destruct (qheap w !! r); apply extends_refl. Qed.

Lemma monotone_getO r : monotone (getO r).
Proof. intros w. unfold getO. destruct (oheap w !! r); apply extends_refl. Qed.

Lemma monotone_modQ r f : monotone (modQ r f).
Proof.
  intros w. unfold modQ, mbind, M_bind, getQ.
  destruct (qheap w !! r); [|apply extends_refl].
  unfold extends. simpl. repeat split; done.
Qed.

Lemma monotone_modO r f : monotone (modO r f).
Proof.
  intros w. unfold modO, mbind, M_bind, getO.
  destruct (oheap w !! r); [|apply extends_refl].
  unfold extends. simpl. repeat split; done.
Qed.

Lemma monotone_modB f :
  (forall b, _instrument (f b) = _instrument b
             /\ send_private (f b) = send_private b) ->
  monotone (modB f).
Proof.
  intros Hf w. unfold extends. simpl. destruct (Hf (book w)).
  repeat split; done.
Qed.

Lemma monotone_now : monotone now.
Proof. intros w. unfold extends. simpl. repeat split; try done. lia. Qed.

Lemma monotone_uuid4 : monotone uuid4.
Proof. intros w. unfold extends. simpl. repeat split; try done. lia. Qed.

Lemma monotone_deliver c msg : monotone (deliver c msg).
Proof.
  intros w. unfold extends. simpl. repeat split; try done.
  by apply prefix_app_r.
Qed.

Create HintDb mono.

#[local] Hint Resolve monotone_ret monotone_raise monotone_out_of_fuel
  monotone_the monotone_getW monotone_getB monotone_getQ monotone_getO
  monotone_modQ monotone_modO monotone_now monotone_uuid4 monotone_deliver
  : mono.

(** Split a program along its binds and its tests. *)
Ltac mono :=
  repeat first
    [ progress intros
    | solve [eauto with mono]
    | apply monotone_modB; solve [intros []; done]
    | apply monotone_bind
    | case_match ].

Lemma monotone_Order_new i o s q p : monotone (Order_new i o s q p).
Proof.
  unfold Order_new. mono.
Qed.

Lemma monotone_Order_update self p q r : monotone (Order_update self p q r).
Proof. unfold Order_update. mono. Qed.

Lemma monotone_Order_add_fill self q : monotone (Order_add_fill self q).
Proof. unfold Order_add_fill. mono. Qed.

Lemma monotone_Order_eq self o : monotone (Order_eq self o).
Proof. unfold Order_eq. mono. Qed.

Lemma monotone_Queue_new l s n : monotone (Queue_new l s n).
Proof.
  intros w. unfold extends. simpl. repeat split; try done. lia.
Qed.

Lemma monotone_Queue_eq self o : monotone (Queue_eq self o).
Proof. unfold Queue_eq. mono. Qed.

Lemma monotone_Queue_notify self st o : monotone (Queue_notify self st o).
Proof. unfold Queue_notify. mono. Qed.

#[local] Hint Resolve monotone_Order_new monotone_Order_update
  monotone_Order_add_fill monotone_Order_eq monotone_Queue_new
  monotone_Queue_eq monotone_Queue_notify : mono.

Lemma monotone_Queue_add self o : monotone (Queue_add self o).
Proof. unfold Queue_add. mono. Qed.

Lemma monotone_Queue_remove self o : monotone (Queue_remove self o).
Proof. unfold Queue_remove. mono. Qed.

Lemma monotone_Queue_fill self o q : monotone (Queue_fill self o q).
Proof. unfold Queue_fill. mono. Qed.

Lemma monotone_call_send_private c msg : monotone (call_send_private c msg).
Proof. unfold call_send_private. mono. Qed.

Lemma monotone_get_tick_size : monotone get_tick_size.
Proof. unfold get_tick_size. mono. Qed.

Lemma monotone_set_best s v : monotone (set_best s v).
Proof. unfold set_best. mono. Qed.

Lemma monotone_get_best s : monotone (get_best s).
Proof. unfold get_best. mono. Qed.

#[local] Hint Resolve monotone_Queue_add monotone_Queue_remove
  monotone_Queue_fill monotone_call_send_private monotone_get_tick_size
  monotone_set_best monotone_get_best : mono.

Lemma monotone_update_mid : monotone _update_mid.
Proof. unfold _update_mid. mono. Qed.

Lemma monotone_find_prev_queue fuel l s : monotone (_find_prev_queue fuel l s).
Proof.
  unfold _find_prev_queue. revert l.
  induction fuel as [|fuel IH]; intros l; simpl; mono.
Qed.

#[local] Hint Resolve monotone_update_mid monotone_find_prev_queue : mono.

Lemma monotone_create_queue fuel s p : monotone (_create_queue fuel s p).
Proof. unfold _create_queue. mono. Qed.

Lemma monotone_get_order id : monotone (_get_order id).
Proof. unfold _get_order. mono. Qed.

Lemma monotone_add_best_volume s d : monotone (add_best_volume s d).
Proof. unfold add_best_volume. mono. Qed.

Lemma monotone_del_queues k : monotone (del_queues k).
Proof. unfold del_queues. mono. Qed.

Lemma monotone_del_order_map k : monotone (del_order_map k).
Proof. unfold del_order_map. mono. Qed.

Lemma monotone_reject_market c r kw : monotone (_reject_market c r kw).
Proof. unfold _reject_market. mono. Qed.

#[local] Hint Resolve monotone_create_queue monotone_get_order
  monotone_add_best_volume monotone_del_queues monotone_del_order_map
  monotone_reject_market : mono.

Lemma monotone_insert_order fuel o : monotone (_insert_order fuel o).
Proof. unfold _insert_order. mono. Qed.

Lemma monotone_delete_queue s q : monotone (_delete_queue s q).
Proof. unfold _delete_queue. mono. Qed.

Lemma monotone_fill_head q x : monotone (fill_head q x).
Proof. unfold fill_head. mono. Qed.

#[local] Hint Resolve monotone_insert_order monotone_delete_queue
  monotone_fill_head : mono.

Lemma monotone_on_marketable_loop fuel s x p q :
  monotone (on_marketable_loop fuel s x p q).
Proof.
  revert x q. induction fuel as [|fuel IH]; intros x q; simpl; mono.
Qed.

Lemma monotone_on_market_loop fuel s x y c :
  monotone (on_market_loop fuel s x y c).
Proof.
  revert y. induction fuel as [|fuel IH]; intros y; simpl; mono.
Qed.

Lemma monotone_get_state_loop fuel qb qa bids asks :
  monotone (get_state_loop fuel qb qa bids asks).
Proof.
  revert qb qa bids asks.
  induction fuel as [|fuel IH]; intros qb qa bids asks; simpl; mono.
Qed.

#[local] Hint Resolve monotone_on_marketable_loop monotone_on_market_loop
  monotone_get_state_loop : mono.

Lemma monotone_on_marketable fuel s x p c :
  monotone (on_marketable fuel s x p c).
Proof. unfold on_marketable. mono. Qed.

#[local] Hint Resolve monotone_on_marketable : mono.



(** ** A round trip that does not give the book back *)

(** C7: the code breaks the claim.  With a valid order of 0.004 resting
    alone at 3.000, its queue has the volume 0.00, rounded to the two
    digits of [Queue.volume_precision] (the quote precision of the
    instrument is three).  A second order of 1 at 3.000 does not cross and
    rests in that queue; cancelling it leaves the queue at volume 0.00,
    which [on_cancel] reads as empty: the queue is deleted.  After the round
    trip the index, the best bid queue and [min_bid] are not those from
    before, and the first order is still in [order_map]. *)
Theorem limit_then_cancel_deletes_shared_queue :
  let wa := (scenario_small_resting (World_init fine_instrument true)).2 in
  let wb := (on_limit 10 BID (qt 1) (px 3000) "bob" wa).2 in
  let wc := (on_cancel 1 wb).2 in
  is_valid_quantity fine_instrument 4000 = true
  /\ not_crossing wa BID (px 3000)
  /\ (on_limit 10 BID (qt 1) (px 3000) "bob" wa).1 = Return tt
  /\ order_map (book wb) !! 1%nat = Some 1%nat
  /\ (on_cancel 1 wb).1 = Return tt
  /\ Queue.volume <$> qheap wa !! 0%nat = Some 0
  /\ queues (book wa) !! px 3000 = Some 0%nat
  /\ queues (book wc) !! px 3000 = None
  /\ side_get (best_queue (book wa)) BID = Some 0%nat
  /\ side_get (best_queue (book wc)) BID = None
  /\ min_bid (book wa) = Fin (px 3000)
  /\ min_bid (book wc) = Inf
  /\ order_map (book wc) !! 0%nat = Some 0%nat
  /\ ~ same_book wa wc.
Proof.
  cbv zeta. do 13 (split; [vm_compute; reflexivity|]).
  intros (_ & Hbest & _). revert Hbest. vm_compute. discriminate.
Qed.
